(** * wordlistctl: retrieval and verification pipeline

    A shallow embedding of [wordlistctl.py] (URL resolver, HTTP fetcher,
    integrity verifier, per-entry retry loop and wordlist selection) as
    state-passing functions over an explicit world (file system, entry
    objects, console and network log), followed by the properties of the
    specification that were checked against it. *)

From Stdlib Require Import ZArith Ascii String List Lia.
From Stdlib.Strings Require Import Byte.
From stdpp Require Import base option list gmap strings sorting pretty.

Local Open Scope string_scope.
Local Open Scope list_scope.
Local Open Scope Z_scope.

(* ===================================================================== *)
(** ** Python's [hashlib.md5]                                            *)
(* ===================================================================== *)

(** The program computes digests with [hashlib.md5]: a hash object created
    by [md5()], fed with [update(data)] and read with [hexdigest()].  The
    object is embedded as RFC 1321 prescribes it: four 32-bit registers, the
    bytes of the block that is not yet complete, and the number of bytes
    absorbed so far.  Words are [Z] reduced modulo [2^32]. *)
Module hashlib.

Definition w32 (x : Z) : Z := x mod 2 ^ 32.
Definition add32 (x y : Z) : Z := w32 (x + y).
Definition not32 (x : Z) : Z := Z.lxor x 0xffffffff.
Definition rotl32 (x n : Z) : Z :=
  w32 (Z.lor (Z.shiftl x n) (Z.shiftr x (32 - n))).

Definition F (x y z : Z) : Z := Z.lor (Z.land x y) (Z.land (not32 x) z).
Definition G (x y z : Z) : Z := Z.lor (Z.land x z) (Z.land y (not32 z)).
Definition H (x y z : Z) : Z := Z.lxor x (Z.lxor y z).
Definition I (x y z : Z) : Z := Z.lxor y (Z.lor x (not32 z)).

(** [T[i] = floor (2^32 * |sin (i + 1)|)]. *)
Definition T : list Z :=
  [ 0xd76aa478; 0xe8c7b756; 0x242070db; 0xc1bdceee;
    0xf57c0faf; 0x4787c62a; 0xa8304613; 0xfd469501;
    0x698098d8; 0x8b44f7af; 0xffff5bb1; 0x895cd7be;
    0x6b901122; 0xfd987193; 0xa679438e; 0x49b40821;
    0xf61e2562; 0xc040b340; 0x265e5a51; 0xe9b6c7aa;
    0xd62f105d; 0x02441453; 0xd8a1e681; 0xe7d3fbc8;
    0x21e1cde6; 0xc33707d6; 0xf4d50d87; 0x455a14ed;
    0xa9e3e905; 0xfcefa3f8; 0x676f02d9; 0x8d2a4c8a;
    0xfffa3942; 0x8771f681; 0x6d9d6122; 0xfde5380c;
    0xa4beea44; 0x4bdecfa9; 0xf6bb4b60; 0xbebfbc70;
    0x289b7ec6; 0xeaa127fa; 0xd4ef3085; 0x04881d05;
    0xd9d4d039; 0xe6db99e5; 0x1fa27cf8; 0xc4ac5665;
    0xf4292244; 0x432aff97; 0xab9423a7; 0xfc93a039;
    0x655b59c3; 0x8f0ccc92; 0xffeff47d; 0x85845dd1;
    0x6fa87e4f; 0xfe2ce6e0; 0xa3014314; 0x4e0811a1;
    0xf7537e82; 0xbd3af235; 0x2ad7d2bb; 0xeb86d391 ].

(** Rotation amounts, one row of four per round. *)
Definition shifts : list Z :=
  [ 7; 12; 17; 22;  5; 9; 14; 20;  4; 11; 16; 23;  6; 10; 15; 21 ].

Definition shift_of (i : Z) : Z :=
  nth (Z.to_nat (4 * (i / 16) + i mod 4)) shifts 0.

Definition byteZ (b : byte) : Z := Z.of_N (Byte.to_N b).

(** Little-endian decoding of a block into 32-bit words. *)
Fixpoint words (bs : list Z) : list Z :=
  match bs with
  | b0 :: b1 :: b2 :: b3 :: r =>
      (b0 + 256 * b1 + 65536 * b2 + 16777216 * b3) :: words r
  | _ => []
  end.

Definition regs : Type := Z * Z * Z * Z.

Definition step (M : list Z) (r : regs) (i : Z) : regs :=
  let '(a, b, c, d) := r in
  let '(f, g) :=
    match i / 16 with
    | 0 => (F b c d, i)
    | 1 => (G b c d, (5 * i + 1) mod 16)
    | 2 => (H b c d, (3 * i + 5) mod 16)
    | _ => (I b c d, (7 * i) mod 16)
    end in
  let x := add32 (add32 (add32 a f) (nth (Z.to_nat i) T 0))
                 (nth (Z.to_nat g) M 0) in
  (d, add32 b (rotl32 x (shift_of i)), b, c).

Definition compress (r : regs) (block : list byte) : regs :=
  let M := words (map byteZ block) in
  let '(a, b, c, d) := r in
  let '(a', b', c', d') :=
    fold_left (step M) (map Z.of_nat (seq 0 64)) r in
  (add32 a a', add32 b b', add32 c c', add32 d d').

Record hash := Hash {
  h_regs : regs;
  h_buf : list byte;   (* bytes of the incomplete block, oldest first *)
  h_count : Z          (* bytes absorbed so far *)
}.

(** [md5()] *)
Definition md5 : hash :=
  Hash (0x67452301, 0xefcdab89, 0x98badcfe, 0x10325476) [] 0.

Definition absorb (h : hash) (b : byte) : hash :=
  let buf := h_buf h ++ [b] in
  if (length buf =? 64)%nat
  then Hash (compress (h_regs h) buf) [] (h_count h + 1)
  else Hash (h_regs h) buf (h_count h + 1).

(** [h.update(data)] *)
Definition update (h : hash) (data : list byte) : hash :=
  fold_left absorb data h.

Definition byte_of_Z (z : Z) : byte :=
  match Byte.of_N (Z.to_N (z mod 256)) with
  | Some b => b
  | None => x00
  end.

Definition le_bytes (n : nat) (z : Z) : list byte :=
  map (fun k => byte_of_Z (Z.shiftr z (8 * Z.of_nat k))) (seq 0 n).

(** Padding: a single [0x80], zeros up to 56 modulo 64, then the bit
    length on 64 bits, little-endian. *)
Definition padding (h : hash) : list byte :=
  let n := length (h_buf h) in
  let zeros := (if (n <? 56)%nat then 55 - n else 119 - n)%nat in
  x80 :: repeat x00 zeros
    ++ le_bytes 8 ((8 * h_count h) mod 2 ^ 64).

Fixpoint blocks (fuel : nat) (r : regs) (bs : list byte) : regs :=
  match fuel with
  | O => r
  | S fuel' =>
      match bs with
      | [] => r
      | _ => blocks fuel' (compress r (firstn 64 bs)) (skipn 64 bs)
      end
  end.

(** [h.digest()] *)
Definition digest (h : hash) : list byte :=
  let '(a, b, c, d) := blocks 2 (h_regs h) (h_buf h ++ padding h) in
  le_bytes 4 a ++ le_bytes 4 b ++ le_bytes 4 c ++ le_bytes 4 d.

Definition hexdigit (z : Z) : ascii :=
  nth (Z.to_nat z) (list_ascii_of_string "0123456789abcdef") "0"%char.

Fixpoint hex (bs : list byte) : string :=
  match bs with
  | [] => ""
  | b :: r =>
      String (hexdigit (byteZ b / 16))
        (String (hexdigit (byteZ b mod 16)) (hex r))
  end.

(** [h.hexdigest()] *)
Definition hexdigest (h : hash) : string := hex (digest h).

End hashlib.


(* ===================================================================== *)
(** ** Python values and built-ins                                       *)
(* ===================================================================== *)

Definition bytes : Type := list byte.

Definition bytes_of_string (s : string) : bytes := list_byte_of_string s.

(** [l[i]] on a Python list: negative indices count from the end, an index
    out of range raises [IndexError] (here [None]). *)
Definition py_index {A} (l : list A) (i : Z) : option A :=
  if 0 <=? i then l !! Z.to_nat i
  else if 0 <=? Z.of_nat (length l) + i
       then l !! Z.to_nat (Z.of_nat (length l) + i)
       else None.

(** [l.index(x)]: position of the first occurrence. *)
Fixpoint py_list_index (x : string) (l : list string) : option nat :=
  match l with
  | [] => None
  | y :: r => if String.eqb y x then Some O else S <$> py_list_index x r
  end.

(** [l.sort()] on a list of [str]: ascending, code point by code point. *)
Definition py_sort (l : list string) : list string := merge_sort String.le l.

Module Str.

Definition chars (s : string) : list ascii := list_ascii_of_string s.
Definition of_chars (l : list ascii) : string := string_of_list_ascii l.

(** [s.startswith(p)] *)
Definition startswith (s p : string) : bool := String.prefix p s.

Fixpoint take_until (c : ascii) (l : list ascii) : list ascii :=
  match l with
  | [] => []
  | x :: r => if Ascii.eqb x c then [] else x :: take_until c r
  end.

Fixpoint drop_until (c : ascii) (l : list ascii) : list ascii :=
  match l with
  | [] => []
  | x :: r => if Ascii.eqb x c then l else drop_until c r
  end.

(** [s.split('/')[-1]], which is also [s[s.rfind('/') + 1:]]: what follows
    the last slash, the whole of [s] when it has none. *)
Definition after_last_slash (s : string) : string :=
  of_chars (rev (take_until "/" (rev (chars s)))).

(** [s[:s.rfind('/') + 1]]: up to and including the last slash. *)
Definition upto_last_slash (s : string) : string :=
  of_chars (rev (drop_until "/" (rev (chars s)))).

Fixpoint drop_while_slash (l : list ascii) : list ascii :=
  match l with
  | [] => []
  | x :: r => if Ascii.eqb x "/" then drop_while_slash r else l
  end.

(** [s.rstrip('/')] *)
Definition rstrip_slash (s : string) : string :=
  of_chars (rev (drop_while_slash (rev (chars s)))).

(** [s.replace(old, new)] for a non-empty [old]: occurrences are replaced
    from the left and do not overlap.  [skip] counts the characters of an
    occurrence that are still to be dropped. *)
Fixpoint replace_go (old new : string) (skip : nat) (s : string) : string :=
  match s with
  | EmptyString => EmptyString
  | String c r =>
      match skip with
      | S k => replace_go old new k r
      | O =>
          if String.prefix old s
          then new +:+ replace_go old new (String.length old - 1) r
          else String c (replace_go old new O r)
      end
  end.
Definition replace (s old new : string) : string := replace_go old new O s.

(** [old in s] *)
Fixpoint contains (old s : string) : bool :=
  String.prefix old s ||
  match s with
  | EmptyString => false
  | String _ r => contains old r
  end.

Definition lower_char (c : ascii) : ascii :=
  let n := nat_of_ascii c in
  if ((65 <=? n) && (n <=? 90))%nat then ascii_of_nat (n + 32) else c.

(** [s.lower()], on ASCII. *)
Definition lower (s : string) : string := of_chars (map lower_char (chars s)).

(** The ASCII characters for which [str.isspace] holds. *)
Definition isspace (c : ascii) : bool :=
  let n := nat_of_ascii c in
  (((9 <=? n) && (n <=? 13)) || ((28 <=? n) && (n <=? 32)))%nat.

Fixpoint lstrip_chars (l : list ascii) : list ascii :=
  match l with
  | [] => []
  | x :: r => if isspace x then lstrip_chars r else l
  end.

(** [s.strip()] *)
Definition strip (s : string) : string :=
  of_chars (rev (lstrip_chars (rev (lstrip_chars (chars s))))).

End Str.

(** [os.path] on POSIX paths. *)
Module os_path.

Definition basename (p : string) : string := Str.after_last_slash p.

Definition all_slashes (s : string) : bool :=
  forallb (fun c => Ascii.eqb c "/") (Str.chars s).

Definition dirname (p : string) : string :=
  let head := Str.upto_last_slash p in
  if negb (String.eqb head "") && negb (all_slashes head)
  then Str.rstrip_slash head else head.

(** [os.path.splitext(p)[0]]: [p] without its extension.  The extension
    starts at the last dot of the last component, unless only dots come
    before it in that component. *)
Definition splitext_root (p : string) : string :=
  let name := Str.chars (basename p) in
  if existsb (fun c => Ascii.eqb c ".") name then
    let stem := rev (tail (Str.drop_until "." (rev name))) in
    if existsb (fun c => negb (Ascii.eqb c ".")) stem
    then Str.upto_last_slash p +:+ Str.of_chars stem
    else p
  else p.

End os_path.

(** [re.fullmatch(r"^.*\.(e1|...|en)$", s)].  A dot inside an alternative is
    the regular expression's wildcard; like the [.*] in front it matches any
    character but a newline. *)
Module re.

Definition newline : ascii := ascii_of_nat 10.

Definition any_char (c : ascii) : bool := negb (Ascii.eqb c newline).

Fixpoint match_alt (pat s : list ascii) : bool :=
  match pat, s with
  | [], [] => true
  | p :: pat', c :: s' =>
      (if Ascii.eqb p "." then any_char c else Ascii.eqb p c)
      && match_alt pat' s'
  | _, _ => false
  end.

Definition match_ext (alt s : string) : bool :=
  let cs := Str.chars s in
  let k := (length cs - (String.length alt + 1))%nat in
  (String.length alt + 1 <=? length cs)%nat
  && forallb any_char (take k cs)
  && match drop k cs with
     | d :: e => Ascii.eqb d "." && match_alt (Str.chars alt) e
     | [] => false
     end.

Definition fullmatch_ext (alts : list string) (s : string) : bool :=
  existsb (fun alt => match_ext alt s) alts.

End re.

(* ===================================================================== *)
(** ** The catalog                                                       *)
(* ===================================================================== *)

(** One element of a category's ["files"] list in [repo.json]. *)
Record entry := Entry {
  e_name : string;
  e_url : list string;
  e_sum : list string;
  e_size : list Z
}.

(** Entries are Python dicts, shared by reference between the catalog, the
    selection made from it and the tasks handed to the pool: they live in a
    store and are named by their address. *)
Definition loc : Type := nat.

Record category := Category {
  c_files : list loc;
  c_count : Z;
  c_size : list Z
}.

(** [wordlist_repo]: a dict, iterated in insertion order. *)
Definition catalog : Type := list (string * category).

Fixpoint repo_get (repo : catalog) (k : string) : option category :=
  match repo with
  | [] => None
  | (k', c) :: r => if String.eqb k' k then Some c else repo_get r k
  end.

(** The module's global settings; [arg_parse] sets them before any
    retrieval starts and nothing changes them afterwards. *)
Record config := Config {
  wordlist_path : string;
  wordlist_repo : catalog;
  selected_category : string;
  decompress_archive : bool;
  remove_archive : bool;
  prefer_http : bool;
  torrent_dl : bool;
  max_parallel : Z;
  useragent_string : string;
  chunk_size : Z;
  skip_integrity_check : bool;
  max_retry : Z
}.

(* ===================================================================== *)
(** ** The world                                                         *)
(* ===================================================================== *)

Inductive exn :=
| IndexError (msg : string)
| KeyError (key : string)
| ValueError (msg : string)
| OSError (msg : string)            (* [IOError] is the same class *)
| RequestException (msg : string)   (* raised by [requests] *)
| LibraryError (msg : string).      (* raised by an archive or torrent library *)

Definition str_exn (e : exn) : string :=
  match e with
  | IndexError m | ValueError m | OSError m
  | RequestException m | LibraryError m => m
  | KeyError k => "'" +:+ k +:+ "'"
  end.

(** What can be observed of a run, in order: what is printed ([Info],
    [Warn], [Success], [Err]), the pauses, the requests sent to the network
    and to the swarm, each [fp.read] of [integrity_check], each call of
    [decompress] and each task handed to the pool. *)
Inductive event :=
| Info (s : string)
| Warn (s : string)
| Success (s : string)
| Err (s : string)
| Sleep (seconds : Z)
| HttpHead (url : string)
| HttpGet (url : string)
| Swarm (source : string)
| Read (path : string) (data : bytes)
| Decompress (path : string)
| Submit (config : loc) (name category : string).

Record world := World {
  w_dirs : gset string;
  w_files : gmap string bytes;
  w_cwd : string;
  w_heap : list entry;
  w_session : bool;     (* [torrent_session is not None] *)
  w_clock : nat;        (* requests sent to the outside so far *)
  w_log : list event
}.

(** An HTTP response, as far as the program looks at it.  [r_anchors] are
    the [<a class="input">] elements of the body as [BeautifulSoup] parses
    them, with their text and their [href] attribute; [r_broken] says that
    the connection is lost once [r_body] has been delivered. *)
Record response := Response {
  r_url : string;
  r_content_type : option string;
  r_body : bytes;
  r_anchors : list (string * option string);
  r_broken : bool
}.

(** What is outside the program: the network, the swarm, the archive
    libraries and the [int] built-in.  Answers may depend on the moment of
    the request ([w_clock]); [None] is the library raising. *)
Record outside := Outside {
  http_head : nat -> string -> option response;
  http_get : nat -> string -> option response;
  magnet_fetch : nat -> string -> option (string * bytes);
  torrent_file_fetch : nat -> bytes -> option (string * bytes);
  unrar : bytes -> option (list (string * bytes));
  unarchive : bytes -> option (list (string * bytes));
  gunzip : bytes -> option bytes;
  bunzip2 : bytes -> option bytes;
  unlzma : bytes -> option bytes;
  py_int : string -> option Z
}.

(** A call returns, raises an [Exception], or leaves through [exit]
    ([SystemExit], which [except Exception] does not catch). *)
Inductive result (A : Type) :=
| Ok (a : A)
| Raise (e : exn)
| Exit (code : Z).
Arguments Ok {A} a.
Arguments Raise {A} e.
Arguments Exit {A} code.

Definition M (A : Type) : Type := world -> result A * world.

Definition ret {A} (a : A) : M A := fun w => (Ok a, w).

Definition bind {A B} (m : M A) (k : A -> M B) : M B :=
  fun w =>
    match m w with
    | (Ok a, w') => k a w'
    | (Raise e, w') => (Raise e, w')
    | (Exit c, w') => (Exit c, w')
    end.

Notation "'let*' x ':=' m 'in' k" := (bind m (fun x => k))
  (at level 10, x pattern, k at level 200).
Notation "m '>>' k" := (bind m (fun _ => k))
  (at level 100, k at level 200, right associativity).

Definition raise {A} (e : exn) : M A := fun w => (Raise e, w).
Definition exit {A} (code : Z) : M A := fun w => (Exit code, w).

(** [try: m  except Exception as ex: h ex] *)
Definition try_except {A} (m : M A) (h : exn -> M A) : M A :=
  fun w =>
    match m w with
    | (Raise e, w') => h e w'
    | r => r
    end.

(** [try: m  except: h], which also catches [SystemExit]. *)
Definition try_bare {A} (m : M A) (h : M A) : M A :=
  fun w =>
    match m w with
    | (Ok a, w') => (Ok a, w')
    | (_, w') => h w'
    end.

Definition from_some {A} (o : option A) (e : exn) : M A :=
  match o with
  | Some a => ret a
  | None => raise e
  end.

Definition log (ev : event) : M unit :=
  fun w => (Ok tt, World (w_dirs w) (w_files w) (w_cwd w) (w_heap w)
                         (w_session w) (w_clock w) (w_log w ++ [ev])).

Definition tick : M nat :=
  fun w => (Ok (w_clock w),
            World (w_dirs w) (w_files w) (w_cwd w) (w_heap w)
                  (w_session w) (S (w_clock w)) (w_log w)).

Definition set_fs (dirs : gset string) (files : gmap string bytes) : M unit :=
  fun w => (Ok tt, World dirs files (w_cwd w) (w_heap w)
                         (w_session w) (w_clock w) (w_log w)).

Definition set_cwd (d : string) : M unit :=
  fun w => (Ok tt, World (w_dirs w) (w_files w) d (w_heap w)
                         (w_session w) (w_clock w) (w_log w)).

Definition set_heap (h : list entry) : M unit :=
  fun w => (Ok tt, World (w_dirs w) (w_files w) (w_cwd w) h
                         (w_session w) (w_clock w) (w_log w)).

Definition set_session (b : bool) : M unit :=
  fun w => (Ok tt, World (w_dirs w) (w_files w) (w_cwd w) (w_heap w)
                         b (w_clock w) (w_log w)).

Definition get {A} (f : world -> A) : M A := fun w => (Ok (f w), w).

(** *** The operating system

    Paths are absolute and taken literally; the file system has directories
    and regular files and no permissions. *)
Module os.

Definition isdir (d : string) : M bool :=
  get (fun w => bool_decide (d ∈ w_dirs w)).

Definition isfile (p : string) : M bool :=
  get (fun w => match w_files w !! p with Some _ => true | None => false end).

Definition mkdir (d : string) : M unit :=
  let* dirs := get w_dirs in
  let* files := get w_files in
  if bool_decide (d ∈ dirs) || bool_decide (is_Some (files !! d))
  then raise (OSError ("[Errno 17] File exists: '" +:+ d +:+ "'"))
  else if bool_decide (os_path.dirname d ∈ dirs)
  then set_fs ({[ d ]} ∪ dirs) files
  else raise (OSError ("[Errno 2] No such file or directory: '" +:+ d +:+ "'")).

Definition remove (p : string) : M unit :=
  let* dirs := get w_dirs in
  let* files := get w_files in
  match files !! p with
  | Some _ => set_fs dirs (delete p files)
  | None => raise (OSError ("[Errno 2] No such file or directory: '" +:+ p +:+ "'"))
  end.

Definition chdir (d : string) : M unit :=
  let* dirs := get w_dirs in
  if bool_decide (d ∈ dirs) then set_cwd d
  else raise (OSError ("[Errno 2] No such file or directory: '" +:+ d +:+ "'")).

(** [open(p, "rb")]: the content of the file. *)
Definition open_rb (p : string) : M bytes :=
  let* files := get w_files in
  from_some (files !! p)
    (OSError ("[Errno 2] No such file or directory: '" +:+ p +:+ "'")).

(** [open(p, "wb")]: the file is created, or emptied when it exists. *)
Definition open_wb (p : string) : M unit :=
  let* dirs := get w_dirs in
  let* files := get w_files in
  if bool_decide (p ∈ dirs)
  then raise (OSError ("[Errno 21] Is a directory: '" +:+ p +:+ "'"))
  else if bool_decide (os_path.dirname p ∈ dirs)
  then set_fs dirs (<[ p := [] ]> files)
  else raise (OSError ("[Errno 2] No such file or directory: '" +:+ p +:+ "'")).

(** [fp.write(data)] on a file opened for writing at [p]. *)
Definition write (p : string) (data : bytes) : M unit :=
  let* dirs := get w_dirs in
  let* files := get w_files in
  set_fs dirs (alter (fun old => old ++ data) p files).

End os.

(** [fp.read(n)] at the position where [rest] is left to read: at most [n]
    bytes, everything when [n] is negative. *)
Definition fp_read (n : Z) (rest : bytes) : bytes * bytes :=
  if n <? 0 then (rest, [])
  else (take (Z.to_nat n) rest, drop (Z.to_nat n) rest).

(** The pieces [rq.iter_content(chunk_size=n)] yields for a body. [fuel]
    bounds the number of pieces; the length of the body is enough. *)
Fixpoint iter_content (fuel : nat) (n : Z) (body : bytes) : list bytes :=
  match fuel with
  | O => []
  | S fuel' =>
      match body with
      | [] => []
      | _ =>
          if n <=? 0 then [body]
          else take (Z.to_nat n) body
                 :: iter_content fuel' n (drop (Z.to_nat n) body)
      end
  end.

Fixpoint for_each {A} (l : list A) (body : A -> M unit) : M unit :=
  match l with
  | [] => ret tt
  | x :: r => body x >> for_each r body
  end.

(* ===================================================================== *)
(** ** The program                                                       *)
(* ===================================================================== *)

Section program.

Context (cfg : config) (out : outside).

Definition err (s : string) : M unit := log (Err s).
Definition warn (s : string) : M unit := log (Warn s).
Definition info (s : string) : M unit := log (Info s).
Definition success (s : string) : M unit := log (Success s).

(** [requests.head(url, ...)] and [requests.get(url, ...)].  An empty URL
    is refused by the library before anything is sent. *)
Definition requests_head (url : string) : M response :=
  if String.eqb url "" then raise (RequestException "Invalid URL ''")
  else
    let* t := tick in
    log (HttpHead url) >>
    from_some (http_head out t url) (RequestException "connection error").

Definition requests_get (url : string) : M response :=
  if String.eqb url "" then raise (RequestException "Invalid URL ''")
  else
    let* t := tick in
    log (HttpGet url) >>
    from_some (http_get out t url) (RequestException "connection error").

Definition time_sleep (seconds : Z) : M unit := log (Sleep seconds).

(** [archive.extractall()] and [libarchive.extract_file]: the members
    land under the working directory. *)
Definition extract_members (members : list (string * bytes)) : M unit :=
  for_each members (fun '(name, data) =>
    let* cwd := get w_cwd in
    let* dirs := get w_dirs in
    let* files := get w_files in
    set_fs dirs (<[ cwd +:+ "/" +:+ name := data ]> files)).

Definition decompress (filepath : string) : M unit :=
  let filename := os_path.basename filepath in
  log (Decompress filepath) >>
  info ("decompressing " +:+ filename) >>
  (if re.fullmatch_ext ["rar"] (Str.lower filename) then
     os.chdir (os_path.dirname filepath) >>
     let* data := os.open_rb filepath in
     let* members := from_some (unrar out data)
                       (LibraryError "rarfile: cannot extract") in
     extract_members members
   else if re.fullmatch_ext ["zip"; "7z"; "tar"; "tar.gz"; "tar.xz"; "tar.bz2"]
                            (Str.lower filename) then
     os.chdir (os_path.dirname filepath) >>
     let* data := os.open_rb filepath in
     let* members := from_some (unarchive out data)
                       (LibraryError "libarchive: cannot extract") in
     extract_members members
   else
     let* decoder :=
       (if re.fullmatch_ext ["gz"] (Str.lower filepath) then ret (gunzip out)
        else if re.fullmatch_ext ["bz"; "bz2"] (Str.lower filepath)
        then ret (bunzip2 out)
        else if re.fullmatch_ext ["lzma"; "xz"] (Str.lower filepath)
        then ret (unlzma out)
        else raise (ValueError "unknown file type")) in
     let* _ := os.open_rb filepath in
     let outfile := os_path.splitext_root filepath in
     os.open_wb outfile >>
     let* data := os.open_rb filepath in
     let* plain := from_some (decoder data)
                     (OSError "invalid compressed data") in
     os.write outfile plain) >>
  success ("decompressing " +:+ filename +:+ " completed").

Definition remove (filename : string) : M unit :=
  try_bare (os.remove filename) (ret tt).

Definition clean (filename : string) : M unit :=
  if remove_archive cfg then remove filename else ret tt.

Fixpoint first_download (anchors : list (string * option string))
  : option (option string) :=
  match anchors with
  | [] => None
  | (text, href) :: r =>
      if Str.startswith (Str.strip text) "Download (" then Some href
      else first_download r
  end.

Definition resolve_mediafire (url : string) : M string :=
  try_bare
    (let* page := requests_head url in
     let* direct :=
       (if negb (String.eqb (r_url page) url) then
          let* ctype := from_some (r_content_type page)
                          (KeyError "content-type") in
          ret (negb (Str.contains "text/html" ctype))
        else ret false) in
     if direct then ret (r_url page)
     else
       let* page := requests_get url in
       match first_download (r_anchors page) with
       | Some href => from_some href (KeyError "href")
       | None => ret url
       end)
    (ret "").

Definition resolve_sourceforge (url : string) : M string :=
  try_bare
    (let* rq := requests_get url in ret (r_url rq))
    (ret "").

(** The [while (resolved == "") and (count < 10)] loop of [resolve];
    [left] is [10 - count]. *)
Fixpoint resolve_while (resolver : string -> M string) (url : string)
    (left : nat) (resolved : string) : M string :=
  match left with
  | O => ret resolved
  | S left' =>
      if String.eqb resolved "" then
        let* resolved := resolver url in
        time_sleep 10 >>
        resolve_while resolver url left' resolved
      else ret resolved
  end.

Definition resolver_for (url : string) : option (string -> M string) :=
  if Str.startswith url "http://downloads.sourceforge.net/"
  then Some resolve_sourceforge
  else if Str.startswith url "http://www.mediafire.com/file/"
  then Some resolve_mediafire
  else None.

Definition resolve (url : string) : M string :=
  match resolver_for url with
  | None => ret url
  | Some resolver => resolve_while resolver url 10 ""
  end.

(** The [while True] loop of [integrity_check].  Every turn that does not
    leave the loop consumes at least one byte, so [fuel] greater than the
    number of bytes left is enough. *)
Fixpoint read_all (fuel : nat) (path : string) (hashagent : hashlib.hash)
    (rest : bytes) : M hashlib.hash :=
  match fuel with
  | O => ret hashagent
  | S fuel' =>
      let '(data, rest') := fp_read (chunk_size cfg) rest in
      log (Read path data) >>
      match data with
      | [] => ret hashagent
      | _ => read_all fuel' path (hashlib.update hashagent data) rest'
      end
  end.

Definition integrity_check (checksum path : string) : M unit :=
  let filename := os_path.basename path in
  info ("checking " +:+ filename +:+ " integrity") >>
  (if String.eqb checksum "SKIP" || skip_integrity_check cfg
   then warn (filename +:+ " integrity check -- skipping")
   else ret tt) >>
  let hashagent := hashlib.md5 in
  let* content := os.open_rb path in
  let* hashagent := read_all (S (length content)) path hashagent content in
  if negb (String.eqb checksum (hashlib.hexdigest hashagent))
  then raise (OSError (filename +:+ " integrity check -- failed"))
  else ret tt.

Definition check_file (path : string) : M bool := os.isfile path.

Definition check_dir (dir_name : string) : M unit :=
  try_except
    (let* present := os.isdir dir_name in
     if present then ret tt
     else info ("creating directory " +:+ dir_name) >> os.mkdir dir_name)
    (fun ex =>
       err ("unable to create directory: " +:+ str_exn ex) >> exit (-1)).

Definition fetch_file (url path : string) : M unit :=
  let filename := os_path.basename path in
  let* present := check_file path in
  if present then warn (filename +:+ " already exists -- skipping")
  else
    info ("downloading " +:+ filename +:+ " to " +:+ path) >>
    let* dlurl := resolve url in
    let* rq := requests_get dlurl in
    os.open_wb path >>
    for_each (iter_content (length (r_body rq)) (chunk_size cfg) (r_body rq))
             (os.write path) >>
    (if r_broken rq then raise (RequestException "connection broken")
     else ret tt) >>
    success ("downloading " +:+ filename +:+ " completed").

(** [fetch_torrent].  The swarm is asked once for the name and the content
    of what it delivers; the two polling loops are taken to end. *)
Definition fetch_torrent (url path : string) : M unit :=
  let* session := get w_session in
  (if session then ret tt else set_session true) >>
  let* handle :=
    (if Str.startswith url "magnet:?" then
       let* t := tick in
       log (Swarm url) >>
       let* h := from_some (magnet_fetch out t url)
                   (LibraryError "libtorrent: invalid magnet link") in
       info ("downloading metadata" +:+ String re.newline "") >>
       success "downloaded metadata" >>
       ret (Some h)
     else if negb (torrent_dl cfg) then ret None
     else
       let* present := os.isfile path in
       if present then
         let* data := os.open_rb path in
         let* t := tick in
         log (Swarm path) >>
         let* h := from_some (torrent_file_fetch out t data)
                     (LibraryError "libtorrent: invalid torrent file") in
         remove path >>
         ret (Some h)
       else err (path +:+ " not found") >> exit (-1)) in
  match handle with
  | None => ret tt
  | Some (name, payload) =>
      let outfilename := os_path.dirname path +:+ "/" +:+ name in
      info ("downloading " +:+ name +:+ " to " +:+ outfilename) >>
      let* dirs := get w_dirs in
      let* files := get w_files in
      set_fs dirs (<[ outfilename := payload ]> files) >>
      success ("downloading " +:+ name +:+ " completed") >>
      decompress outfilename
  end.

(** [config] names a dict of the catalog; every address a caller passes is
    in the store. *)
Definition deref (config : loc) : M entry :=
  let* heap := get w_heap in
  from_some (heap !! config) (KeyError "config").

(** [urls = config["url"]; urls.sort()], then [urls[0]] or [urls[-1]].
    [urls] is the entry's own list, which the sort reorders in place. *)
Definition choose_url (config : loc) : M string :=
  let* e := deref config in
  let urls := py_sort (e_url e) in
  let* heap := get w_heap in
  set_heap (<[ config := Entry (e_name e) urls (e_sum e) (e_size e) ]> heap) >>
  from_some (py_index urls (if prefer_http cfg then 0 else -1))
    (IndexError "list index out of range").

(** [config["sum"][config["url"].index(url)]] *)
Definition checksum_of (config : loc) (url : string) : M string :=
  let* e := deref config in
  let* i := from_some (py_list_index url (e_url e))
              (ValueError ("'" +:+ url +:+ "' is not in list")) in
  from_some (e_sum e !! i) (IndexError "list index out of range").

(** The [if url.startswith("http")] statement of [download_wordlist]. *)
Definition transfer (url csum file_path : string) : M unit :=
  if Str.startswith url "http" then
    fetch_file url file_path >>
    integrity_check csum file_path >>
    decompress file_path
  else if Str.startswith (Str.replace url "torrent+" "") "magnet:?" then
    fetch_torrent (Str.replace url "torrent+" "") file_path
  else
    fetch_file (Str.replace url "torrent+" "") file_path >>
    integrity_check csum file_path >>
    fetch_torrent url file_path.

(** The body of the [try] in [download_wordlist].  The local [file_path]
    outlives the body: the handler reads it, whether the body assigned it
    in this turn or in an earlier one, so the body returns it. *)
Definition attempt (config : loc) (file_directory file_path : string)
  : world -> result unit * string * world :=
  fun w =>
    match choose_url config w with
    | (Ok url, w1) =>
        let filename := Str.after_last_slash url in
        let file_path := file_directory +:+ "/" +:+ filename in
        let '(r, w2) :=
          (let* csum := checksum_of config url in
           transfer url csum file_path) w1 in
        (r, file_path, w2)
    | (Raise ex, w1) => (Raise ex, file_path, w1)
    | (Exit c, w1) => (Exit c, file_path, w1)
    end.

(** The [except Exception as ex] clause of [download_wordlist]. *)
Definition on_failure (wordlistname : string) (ex : exn) (file_path : string)
  : M unit :=
  err ("Error while downloading " +:+ wordlistname +:+ ": " +:+ str_exn ex) >>
  remove file_path.

(** [for _ in range(0, max_retry + 1)], with [turns] turns left. *)
Fixpoint retry (turns : nat) (config : loc) (wordlistname : string)
    (file_directory file_path : string) : M unit :=
  match turns with
  | O => ret tt
  | S turns' =>
      fun w =>
        match attempt config file_directory file_path w with
        | (Ok _, _, w') => (Ok tt, w')
        | (Raise ex, file_path', w') =>
            (on_failure wordlistname ex file_path' >>
             retry turns' config wordlistname file_directory file_path') w'
        | (Exit c, _, w') => (Exit c, w')
        end
  end.

Definition download_wordlist (config : loc) (wordlistname category : string)
  : M unit :=
  check_dir (wordlist_path cfg +:+ "/" +:+ category) >>
  let file_directory := wordlist_path cfg +:+ "/" +:+ category in
  retry (Z.to_nat (max_retry cfg + 1)) config wordlistname file_directory "".

Definition to_int (s : string) : M Z :=
  match py_int out s with
  | Some z => ret z
  | None => err (s +:+ " is not a valid number") >> exit (-1)
  end.

Definition keys (repo : catalog) : list string := map fst repo.

(** [wordlist_repo[i]["count"]] for a key [i] of the catalog. *)
Definition count_at (i : string) : Z :=
  from_option c_count 0 (repo_get (wordlist_repo cfg) i).

(** [for i in wordlist_repo.keys(): wordlists_count += ...] *)
Definition total_count : Z :=
  fold_left (fun n i => n + count_at i) (keys (wordlist_repo cfg)) 0.

(** The loop that looks for the category of a catalog-wide id; it returns
    the values of [cat] and [count] when it is left. *)
Fixpoint find_category (ks : list string) (wordlist_id : Z)
    (cat : string) (count : Z) : string * Z :=
  match ks with
  | [] => (cat, count)
  | i :: ks' =>
      let count := count + count_at i in
      if wordlist_id - 1 <? count then (i, count)
      else find_category ks' wordlist_id cat count
  end.

Definition files_of (k : string) : M (list loc) :=
  let* c := from_some (repo_get (wordlist_repo cfg) k) (KeyError k) in
  ret (c_files c).

Definition file_at (k : string) (i : Z) : M loc :=
  let* files := files_of k in
  from_some (py_index files i) (IndexError "list index out of range").

(** The value of [lst] once the [if] chain of [download_wordlists] is
    through: the categories to go over, each with its ["files"]. *)
Definition select (code : string) (wordlist_id : Z)
  : M (list (string * list loc)) :=
  if (wordlist_id >=? total_count + 1) || (wordlist_id <? 0) then
    raise (IndexError (code +:+ " is not a valid wordlist id"))
  else if wordlist_id =? 0 then
    if String.eqb (selected_category cfg) "" then
      ret (map (fun '(k, c) => (k, c_files c)) (wordlist_repo cfg))
    else
      let* files := files_of (selected_category cfg) in
      ret [(selected_category cfg, files)]
  else if negb (String.eqb (selected_category cfg) "") then
    let* j := file_at (selected_category cfg) (wordlist_id - 1) in
    ret [(selected_category cfg, [j])]
  else
    let '(cat, count) :=
      find_category (keys (wordlist_repo cfg)) wordlist_id "" 0 in
    let wid := (wordlist_id - 1) - count in
    let* j := file_at cat wid in
    ret [(cat, [j])].

(** [parallel_executer.submit(task)].  The pool keeps what the task
    returns or raises, [SystemExit] included, in a future that nobody
    reads.  Tasks are run one after the other, in the order they are
    submitted: one of the schedules of the pool. *)
Definition submit (task : M unit) : M unit :=
  fun w => (Ok tt, snd (task w)).

Definition download_wordlists (code : string) : M unit :=
  check_dir (wordlist_path cfg) >>
  let* wordlist_id := to_int code in
  try_except
    (let* lst := select code wordlist_id in
     for_each lst (fun '(i, files) =>
       for_each files (fun j =>
         let* e := deref j in
         log (Submit j (e_name e) i) >>
         submit (download_wordlist j (e_name e) i))))
    (fun ex =>
       err ("Error unable to download wordlist: " +:+ str_exn ex)).

End program.

(* ===================================================================== *)
(** ** Notions the properties are stated with                            *)
(* ===================================================================== *)

(** The entries of the whole catalog, in the order of the categories. *)
Definition flattened (repo : catalog) : list loc :=
  concat (map (fun kc => c_files (snd kc)) repo).

(** The sum of the cached counts of some categories. *)
Definition cumulative (repo : catalog) : Z :=
  fold_right (fun kc n => c_count (snd kc) + n) 0 repo.

(** A catalog as [json.load] builds it from a well-formed [repo.json]: the
    keys of a dict are distinct and ["count"] caches the number of files. *)
Definition counts_cached (repo : catalog) : Prop :=
  Forall (fun kc => c_count (snd kc) = Z.of_nat (length (c_files (snd kc)))) repo.

Definition well_formed (repo : catalog) : Prop :=
  NoDup (keys repo) /\ counts_cached repo.

(** The events that only write to the console. *)
Definition console (ev : event) : Prop :=
  match ev with
  | Info _ | Warn _ | Success _ | Err _ => True
  | _ => False
  end.

(** The settings with the flag of option [-X] set to [b]. *)
Definition set_decompress_archive (b : bool) (cfg : config) : config :=
  Config (wordlist_path cfg) (wordlist_repo cfg) (selected_category cfg) b
         (remove_archive cfg) (prefer_http cfg) (torrent_dl cfg)
         (max_parallel cfg) (useragent_string cfg) (chunk_size cfg)
         (skip_integrity_check cfg) (max_retry cfg).

Definition with_log (w : world) (l : list event) : world :=
  World (w_dirs w) (w_files w) (w_cwd w) (w_heap w) (w_session w)
        (w_clock w) l.

Definition is_read_of (path : string) (ev : event) : Prop :=
  exists data, ev = Read path data.

(** What [integrity_check] answers for a checksum and a digest. *)
Definition verdict (path checksum digest : string) : result unit :=
  if String.eqb checksum digest then Ok tt
  else Raise (OSError (os_path.basename path +:+ " integrity check -- failed")).

(** One turn of the loop of [resolve] that comes back empty-handed: the
    resolver is called, returns [""], and ten seconds pass. *)
Definition empty_turn (resolver : string -> M string) (url : string)
    (w w' : world) : Prop :=
  exists w1, resolver url w = (Ok "", w1) /\ w' = snd (log (Sleep 10) w1).

(** One failed turn of the loop of [download_wordlist], from the value of
    [file_path] and the world before the [try] to those after the handler:
    the body raises, the failure is reported, the file is removed. *)
Definition failed_turn (cfg : config) (out : outside) (config : loc)
    (wordlistname file_directory : string)
    (s s' : string * world) : Prop :=
  exists ex w1,
    attempt cfg out config file_directory (fst s) (snd s) = (Raise ex, fst s', w1)
    /\ on_failure wordlistname ex (fst s') w1 = (Ok tt, snd s')
    /\ w_files (snd s') !! fst s' = None
    /\ exists m, In (Err ("Error while downloading " +:+ wordlistname +:+ ": " +:+ m))
                    (w_log (snd s')).

(* ===================================================================== *)
(** ** A concrete setting                                                *)
(* ===================================================================== *)

Module Demo.

(** A stand-in for [int(s)]: an optional sign followed by ASCII digits;
    anything else is refused. *)
Fixpoint digits (acc : Z) (s : string) : option Z :=
  match s with
  | EmptyString => Some acc
  | String c r =>
      let n := Z.of_nat (nat_of_ascii c) in
      if (48 <=? n) && (n <=? 57) then digits (10 * acc + (n - 48)) r
      else None
  end.

Definition int (s : string) : option Z :=
  match s with
  | EmptyString => None
  | String "-" EmptyString => None
  | String "-" r => Z.opp <$> digits 0 r
  | String "+" EmptyString => None
  | String "+" r => digits 0 r
  | _ => digits 0 s
  end.

Definition md5_hex (data : string) : string :=
  hashlib.hexdigest (hashlib.update hashlib.md5 (bytes_of_string data)).

(** A network that serves three files and nothing else, a swarm that is
    never reached, and a [gzip] that inflates one stream. *)
Definition serve (url body : string) : option response :=
  Some (Response url None (bytes_of_string body) [] false).

Definition net (t : nat) (url : string) : option response :=
  if String.eqb url "http://a/file" then serve url "content of a"
  else if String.eqb url "http://b/file" then serve url "content of b"
  else if String.eqb url "http://h/a.txt.gz" then serve url "gzipped words"
  else None.

Definition inflate (data : bytes) : option bytes :=
  if bool_decide (map Byte.to_N data
                  = map Byte.to_N (bytes_of_string "gzipped words"))
  then Some (bytes_of_string "words") else None.

Definition out : outside :=
  Outside (fun _ _ => None) net (fun _ _ => None) (fun _ _ => None)
          (fun _ => None) (fun _ => None) inflate
          (fun _ => None) (fun _ => None) int.

(** A network on which every request fails. *)
Definition offline : outside :=
  Outside (fun _ _ => None) (fun _ _ => None) (fun _ _ => None)
          (fun _ _ => None) (fun _ => None) (fun _ => None)
          (fun _ => None) (fun _ => None) (fun _ => None) int.

(** The example of the specification: two mirrors of one file, each with
    the checksum of what it serves. *)
Definition mirrors : entry :=
  Entry "file" ["http://b/file"; "http://a/file"]
        ["51cd87d3a87c967d2883954584ba80da";
         "3939143418786c525351edbd330b7769"] [12; 12].

Definition gz : entry :=
  Entry "a" ["http://h/a.txt.gz"] ["50a0fcdf2890cc1b1dfcbd7866755720"] [13; 5].

Definition repo : catalog :=
  [ ("misc", Category [0%nat] 1 [12; 12]);
    ("words", Category [1%nat] 1 [13; 5]) ].

(** The settings the program starts with when no option is given. *)
Definition cfg : config :=
  Config "/usr/share/wordlists" repo "" false false false true 5
         "Mozilla/5.0 (X11; Linux x86_64; rv:68.0) Gecko/20100101 Firefox/68.0"
         1024 false 3.

(** The same settings with another chunk size. *)
Definition cfg_chunk (n : Z) : config :=
  Config "/usr/share/wordlists" repo "" false false false true 5
         "Mozilla/5.0 (X11; Linux x86_64; rv:68.0) Gecko/20100101 Firefox/68.0"
         n false 3.

Definition installed : gset string :=
  {[ "/"; "/usr"; "/usr/share"; "/usr/share/wordlists";
     "/usr/share/wordlists/misc"; "/usr/share/wordlists/words" ]}.

Definition w0 : world :=
  World installed ∅ "/" [mirrors; gz] false 0 [].

(** A machine on which the base directory does not exist yet. *)
Definition fresh : world :=
  World {[ "/"; "/usr"; "/usr/share" ]} ∅ "/" [mirrors; gz] false 0 [].

(** A world in which [a.txt.gz] was fetched earlier. *)
Definition fetched : world :=
  World installed
        {[ "/usr/share/wordlists/words/a.txt.gz" := bytes_of_string "gzipped words" ]}
        "/" [mirrors; gz] false 0 [].

End Demo.

(* ===================================================================== *)
(** ** Further functions and notions                                     *)
(* ===================================================================== *)

Section category.

Context (cfg : config) (out : outside).

(** [change_category].  The function assigns the global
    [selected_category]; here it returns the value it assigns. *)
Definition change_category (code : string) : M string :=
  let* category_id := to_int out code in
  try_except
    (if (category_id >=? Z.of_nat (length (keys (wordlist_repo cfg))))
        || (category_id <? 0)
     then raise (IndexError (code +:+ " is not a valid category id"))
     else from_some (py_index (keys (wordlist_repo cfg)) category_id)
            (IndexError "list index out of range"))
    (fun ex =>
       err ("Error while changing category: " +:+ str_exn ex) >> exit (-1)).

End category.

(** The settings once [change_category] has assigned [k]. *)
Definition set_selected_category (k : string) (cfg : config) : config :=
  Config (wordlist_path cfg) (wordlist_repo cfg) k (decompress_archive cfg)
         (remove_archive cfg) (prefer_http cfg) (torrent_dl cfg)
         (max_parallel cfg) (useragent_string cfg) (chunk_size cfg)
         (skip_integrity_check cfg) (max_retry cfg).

(** The settings with the flag of option [-T] set to [b]. *)
Definition set_torrent_dl (b : bool) (cfg : config) : config :=
  Config (wordlist_path cfg) (wordlist_repo cfg) (selected_category cfg)
         (decompress_archive cfg) (remove_archive cfg) (prefer_http cfg) b
         (max_parallel cfg) (useragent_string cfg) (chunk_size cfg)
         (skip_integrity_check cfg) (max_retry cfg).

(** Worlds that differ by the clock of requests and the log at most. *)
Definition same_store (w w' : world) : Prop :=
  w_dirs w' = w_dirs w /\ w_files w' = w_files w /\ w_cwd w' = w_cwd w
  /\ w_heap w' = w_heap w /\ w_session w' = w_session w.

(** From [w] to [w'] no directory and no file has gone. *)
Definition nothing_deleted (w w' : world) : Prop :=
  w_dirs w ⊆ w_dirs w' /\ dom (w_files w) ⊆ dom (w_files w').

(** From [w] to [w'] the log has only been added to. *)
Definition log_extended (w w' : world) : Prop :=
  exists added, w_log w' = w_log w ++ added.

(** A computation keeps a relation between the world it starts in and the
    world it leaves. *)
Definition preserves (R : world -> world -> Prop) {A} (m : M A) : Prop :=
  forall w, R w (snd (m w)).

(** A computation never leaves through [exit]. *)
Definition never_exits {A} (m : M A) : Prop :=
  forall w c, fst (m w) <> Exit c.

(** A computation never raises and never exits. *)
Definition always_returns {A} (m : M A) : Prop :=
  forall w, exists a, fst (m w) = Ok a.

(** Two dicts are equal when they hold the same values. *)
#[local] Instance entry_eq_dec : EqDecision entry.
Proof. solve_decision. Defined.

(** What [re.match(regex, name)] answers: whether the expression matches
    at the start of the name, or the message of the [re.error] it raises
    for an expression it cannot compile. *)
Inductive re_answer :=
| Matches (b : bool)
| ReError (msg : string).

#[local] Instance re_answer_eq_dec : EqDecision re_answer.
Proof. solve_decision. Defined.

Section search.

Context (cfg : config) (re_match : string -> string -> re_answer).

(** [wordlist_repo[i]["files"]] for a key [i] of the catalog. *)
Definition files_at (i : string) : list loc :=
  from_option c_files [] (repo_get (wordlist_repo cfg) i).

(** The list [search_sites] goes over: the files of the selected category,
    or those of all the categories, one category after the other. *)
Definition listing : M (list loc) :=
  if negb (String.eqb (selected_category cfg) "")
  then files_of cfg (selected_category cfg)
  else ret (concat (map files_at (keys (wordlist_repo cfg)))).

(** [lst.index(i)] on a list of entries: the first position that holds a
    dict equal to [i]. *)
Fixpoint index_of (heap : list entry) (lst : list loc) (i : loc) : option nat :=
  match lst with
  | [] => None
  | j :: r =>
      if bool_decide (heap !! j = heap !! i) then Some O
      else S <$> index_of heap r i
  end.

(** The [for i in lst] loop of [search_sites], with [rest] left to visit;
    it returns [count]. *)
Fixpoint search_loop (regex : string) (lst rest : list loc) (count : Z) : M Z :=
  match rest with
  | [] => ret count
  | i :: rest' =>
      let* e := deref i in
      let name := e_name e in
      let* heap := get w_heap in
      let* position := from_some (index_of heap lst i)
                         (ValueError "dict is not in list") in
      let id := Z.of_nat position + 1 in
      match re_match regex name with
      | ReError msg => raise (LibraryError msg)
      | Matches true =>
          success ("wordlist " +:+ name +:+ " found: id=" +:+ pretty id) >>
          search_loop regex lst rest' (count + 1)
      | Matches false => search_loop regex lst rest' count
      end
  end.

Definition search_sites (regex : string) : M unit :=
  info ("searching for " +:+ regex +:+ " in repo.json" +:+ String re.newline "") >>
  try_except
    (let* lst := listing in
     let* count := search_loop regex lst lst 0 in
     if count =? 0 then err "no wordlist found" else ret tt)
    (fun ex => err ("Error while searching: " +:+ str_exn ex)).

End search.

(** Every entry of the catalog is in the store. *)
Definition all_stored (repo : catalog) (heap : list entry) : Prop :=
  Forall (fun j => is_Some (heap !! j)) (flattened repo).

(** The line [search_sites] prints for the entry [e] found with the id
    [id]. *)
Definition found_line (e : entry) (id : Z) : event :=
  Success ("wordlist " +:+ e_name e +:+ " found: id=" +:+ pretty id).

(** More concrete settings. *)
Module Cases.

(** A network whose first answer is lost and which afterwards redirects
    every request to a mirror. *)
Definition flaky_get (t : nat) (url : string) : option response :=
  match t with
  | O => None
  | S _ => Some (Response "http://mirror/list.txt" None [] [] false)
  end.

Definition flaky : outside :=
  Outside (fun _ _ => None) flaky_get (fun _ _ => None) (fun _ _ => None)
          (fun _ => None) (fun _ => None) (fun _ => None)
          (fun _ => None) (fun _ => None) Demo.int.

(** The settings after option [-h]. *)
Definition prefer_http_cfg : config :=
  Config "/usr/share/wordlists" Demo.repo "" false false true true 5
         "Mozilla/5.0 (X11; Linux x86_64; rv:68.0) Gecko/20100101 Firefox/68.0"
         1024 false 3.

(** [re.match] for an expression without special characters: the name
    starts with the expression. *)
Definition literal (regex name : string) : re_answer :=
  Matches (String.prefix regex name).

End Cases.

(* ===================================================================== *)
(** ** The digest                                                        *)
(* ===================================================================== *)

Example md5_of_nothing :
  hashlib.hexdigest hashlib.md5 = "d41d8cd98f00b204e9800998ecf8427e".
Proof. vm_compute. reflexivity. Qed.

Example md5_of_abc :
  Demo.md5_hex "abc" = "900150983cd24fb0d6963f7d28e17f72".
Proof. vm_compute. reflexivity. Qed.

Example checksums_of_the_demo :
  Demo.md5_hex "content of b" = "51cd87d3a87c967d2883954584ba80da"
  /\ Demo.md5_hex "content of a" = "3939143418786c525351edbd330b7769"
  /\ Demo.md5_hex "gzipped words" = "50a0fcdf2890cc1b1dfcbd7866755720".
Proof. vm_compute. repeat split. Qed.

(** Lengths on both sides of the padding and block boundaries, against
    the digests Python's [hashlib] gives. *)
Example md5_at_the_boundaries :
  map (fun n => hashlib.hexdigest (hashlib.update hashlib.md5 (repeat "a"%byte n)))
      [55; 56; 63; 64; 65; 70; 119; 120; 128]%nat
  = [ "ef1772b6dff9a122358552954ad0df65"; "3b0c8ac703f828b04c6c197006d17218";
      "b06521f39153d618550606be297466d5"; "014842d480b571495a4a0363793f7367";
      "c743a45e0d2e6a95cb859adae0248435"; "0f5c6c4e740bfcc08c3c26ccb2673d46";
      "8a7bd0732ed6a28ce75f6dabc90e1613"; "5f61c0ccad4cac44c75ff505e1f1e537";
      "e510683b3f5ffe4093d021808bc6ff70" ].
Proof. vm_compute. reflexivity. Qed.

(** All byte values. *)
Example md5_of_every_byte :
  hashlib.hexdigest
    (hashlib.update hashlib.md5
       (map (fun n => hashlib.byte_of_Z (Z.of_nat n)) (seq 0 256)))
  = "e2c865db4162bed963bfaa9ef6ac18f0".
Proof. vm_compute. reflexivity. Qed.

Lemma update_app (h : hashlib.hash) (a b : bytes) :
  hashlib.update h (a ++ b) = hashlib.update (hashlib.update h a) b.
Proof. unfold hashlib.update. apply fold_left_app. Qed.

Lemma hex_length (bs : bytes) :
  String.length (hashlib.hex bs) = (2 * length bs)%nat.
Proof. induction bs as [|b bs IH]; simpl; [reflexivity | rewrite IH; lia]. Qed.

Lemma le_bytes_length (n : nat) (z : Z) : length (hashlib.le_bytes n z) = n.
Proof. unfold hashlib.le_bytes. rewrite length_map. apply length_seq. Qed.

Lemma hexdigest_length (h : hashlib.hash) :
  String.length (hashlib.hexdigest h) = 32%nat.
Proof.
  unfold hashlib.hexdigest, hashlib.digest.
  destruct (hashlib.blocks _ _ _) as [[[a b] c] d].
  rewrite hex_length, !length_app, !le_bytes_length. reflexivity.
Qed.

Lemma hexdigest_not_skip (h : hashlib.hash) :
  String.eqb "SKIP" (hashlib.hexdigest h) = false.
Proof.
  apply String.eqb_neq. intros E.
  pose proof (hexdigest_length h) as L. rewrite <- E in L. discriminate L.
Qed.

(* ===================================================================== *)
(** ** The integrity verifier                                            *)
(* ===================================================================== *)

Lemma fp_read_all (n : Z) (rest : bytes) :
  fst (fp_read n rest) ++ snd (fp_read n rest) = rest.
Proof.
  unfold fp_read. destruct (n <? 0); simpl.
  - apply app_nil_r.
  - apply take_drop.
Qed.

Lemma fp_read_progress (n : Z) (rest : bytes) :
  fst (fp_read n rest) <> [] ->
  (length (snd (fp_read n rest)) < length rest)%nat.
Proof.
  intros Hne. pose proof (fp_read_all n rest) as E.
  apply (f_equal (@length byte)) in E. rewrite length_app in E.
  destruct (fst (fp_read n rest)); [congruence | simpl in E; lia].
Qed.

Lemma fp_read_eof (n : Z) (rest : bytes) :
  0 < n -> fst (fp_read n rest) = [] -> rest = [].
Proof.
  unfold fp_read. intros Hn. destruct (n <? 0) eqn:E; [lia|]. simpl.
  destruct rest as [|b rest]; [reflexivity|].
  destruct (Z.to_nat n) eqn:En; [lia | discriminate].
Qed.

(** The loop returns, logs one [Read] per turn and changes nothing else;
    with a positive chunk size and enough fuel it has absorbed all of
    [rest]. *)
Lemma read_all_run (cfg : config) (path : string) :
  forall (fuel : nat) (h : hashlib.hash) (rest : bytes) (w : world),
  exists h' evs,
    read_all cfg fuel path h rest w = (Ok h', with_log w (w_log w ++ evs))
    /\ Forall (is_read_of path) evs
    /\ (fuel <> O -> evs <> [])
    /\ (0 < chunk_size cfg -> (length rest < fuel)%nat ->
        h' = hashlib.update h rest).
Proof.
  induction fuel as [|fuel IH]; intros h rest w.
  - exists h, []. simpl. unfold ret, with_log. rewrite app_nil_r.
    destruct w; simpl. repeat split; [constructor | congruence | lia].
  - simpl.
    pose proof (fp_read_all (chunk_size cfg) rest) as Hall.
    pose proof (fp_read_progress (chunk_size cfg) rest) as Hprog.
    pose proof (fp_read_eof (chunk_size cfg) rest) as Heof.
    destruct (fp_read (chunk_size cfg) rest) as [data rest'] eqn:Er.
    simpl in Hall, Hprog, Heof.
    destruct data as [|b data].
    + exists h, [Read path []]. unfold bind, log, ret. simpl.
      repeat split.
      * repeat constructor. exists []. reflexivity.
      * congruence.
      * intros Hn _. rewrite (Heof Hn eq_refl). reflexivity.
    + destruct (IH (hashlib.update h (b :: data)) rest'
                   (snd (log (Read path (b :: data)) w)))
        as (h' & evs & Hrun & Hevs & _ & Hh).
      exists h', (Read path (b :: data) :: evs).
      unfold bind. simpl. simpl in Hrun. rewrite Hrun.
      unfold with_log. simpl. rewrite <- app_assoc. simpl.
      repeat split.
      * constructor; [exists (b :: data); reflexivity | exact Hevs].
      * congruence.
      * intros Hn Hlen. rewrite <- Hall, update_app.
        apply Hh; [exact Hn|]. specialize (Hprog ltac:(congruence)). lia.
Qed.

#[local] Arguments read_all : simpl never.

(** What [integrity_check] does when the file is there, whatever the
    checksum and the skip flag: it reads the file, and its verdict is the
    comparison of the checksum with the digest it computed. *)
Lemma integrity_check_run (cfg : config) (checksum path : string)
    (content : bytes) (w : world) :
  w_files w !! path = Some content ->
  exists h' evs,
    integrity_check cfg checksum path w =
      (verdict path checksum (hashlib.hexdigest h'),
       with_log w
         (w_log w ++ Info ("checking " +:+ os_path.basename path +:+ " integrity")
            :: (if String.eqb checksum "SKIP" || skip_integrity_check cfg
                then [Warn (os_path.basename path +:+ " integrity check -- skipping")]
                else []) ++ evs))
    /\ Forall (is_read_of path) evs /\ evs <> []
    /\ (0 < chunk_size cfg -> h' = hashlib.update hashlib.md5 content).
Proof.
  intros Hfile. unfold integrity_check, bind, info, warn, log, ret.
  destruct (String.eqb checksum "SKIP" || skip_integrity_check cfg); simpl;
    unfold os.open_rb, bind, get, from_some, ret; simpl; rewrite Hfile;
    match goal with
    | |- context [read_all _ _ _ _ _ ?W] =>
        destruct (read_all_run cfg path (S (length content)) hashlib.md5
                    content W) as (h' & evs & Hrun & Hevs & Hne & Hh)
    end;
    rewrite Hrun; exists h', evs;
    (split; [|split; [exact Hevs|split; [apply Hne; congruence|
       intros Hn; apply Hh; [exact Hn|lia]]]]);
    unfold with_log, verdict; simpl; rewrite <- !app_assoc; simpl;
    destruct (String.eqb checksum (hashlib.hexdigest h')); reflexivity.
Qed.

(** C10.  With a positive chunk size, the hash object that the reading loop
    of [integrity_check] has fed chunk by chunk is the one [md5] gives for
    the whole content at once, so that the verdict of [integrity_check] is
    the comparison of the checksum with the digest of the whole content,
    whatever the chunk size. *)
Theorem chunked_digest_is_whole_digest (cfg : config) (checksum path : string)
    (content : bytes) (w : world) :
  0 < chunk_size cfg ->
  w_files w !! path = Some content ->
  (forall w0 : world,
     fst (read_all cfg (S (length content)) path hashlib.md5 content w0)
     = Ok (hashlib.update hashlib.md5 content))
  /\ fst (integrity_check cfg checksum path w)
     = verdict path checksum
         (hashlib.hexdigest (hashlib.update hashlib.md5 content)).
Proof.
  intros Hn Hfile. split.
  - intros w0.
    destruct (read_all_run cfg path (S (length content)) hashlib.md5 content w0)
      as (h' & evs & Hrun & _ & _ & Hh).
    rewrite Hrun. simpl. f_equal. apply Hh; [exact Hn | lia].
  - destruct (integrity_check_run cfg checksum path content w Hfile)
      as (h' & evs & Hrun & _ & _ & Hh).
    rewrite Hrun, (Hh Hn). reflexivity.
Qed.

Lemma chunked_digest_is_whole_digest_witness :
  0 < chunk_size (Demo.cfg_chunk 4)
  /\ w_files Demo.fetched !! "/usr/share/wordlists/words/a.txt.gz"
     = Some (bytes_of_string "gzipped words")
  /\ fst (integrity_check (Demo.cfg_chunk 4) "50a0fcdf2890cc1b1dfcbd7866755720"
            "/usr/share/wordlists/words/a.txt.gz" Demo.fetched)
     = verdict "/usr/share/wordlists/words/a.txt.gz"
         "50a0fcdf2890cc1b1dfcbd7866755720"
         (hashlib.hexdigest
            (hashlib.update hashlib.md5 (bytes_of_string "gzipped words"))).
Proof.
  split; [reflexivity|]. split; [reflexivity|].
  apply (chunked_digest_is_whole_digest (Demo.cfg_chunk 4)
           "50a0fcdf2890cc1b1dfcbd7866755720"
           "/usr/share/wordlists/words/a.txt.gz"
           (bytes_of_string "gzipped words") Demo.fetched);
    reflexivity.
Defined.

(** C1 (the code departs from it).  When the file is there, a call of
    [integrity_check] with the checksum ["SKIP"], or with the skip flag set,
    prints the warning that the check is skipped and then goes on as any
    other call: it reads the file, computes the digest and compares.  With
    ["SKIP"] the comparison always fails, as no digest is equal to
    ["SKIP"], and the integrity failure is raised. *)
Theorem skip_is_not_honoured (cfg : config) (checksum path : string)
    (content : bytes) (w : world) :
  w_files w !! path = Some content ->
  String.eqb checksum "SKIP" || skip_integrity_check cfg = true ->
  exists h' w',
    integrity_check cfg checksum path w
    = (verdict path checksum (hashlib.hexdigest h'), w')
    /\ (0 < chunk_size cfg -> h' = hashlib.update hashlib.md5 content)
    /\ (checksum = "SKIP" ->
        verdict path checksum (hashlib.hexdigest h')
        = Raise (OSError (os_path.basename path +:+ " integrity check -- failed")))
    /\ In (Warn (os_path.basename path +:+ " integrity check -- skipping")) (w_log w')
    /\ exists data, In (Read path data) (w_log w').
Proof.
  intros Hfile Hskip.
  destruct (integrity_check_run cfg checksum path content w Hfile)
    as (h' & evs & Hrun & Hevs & Hne & Hh).
  rewrite Hrun, Hskip.
  eexists h', _. split; [reflexivity|]. split; [exact Hh|]. split.
  - intros ->. unfold verdict. rewrite hexdigest_not_skip. reflexivity.
  - simpl. split.
    + apply in_or_app. right. right. left. reflexivity.
    + destruct evs as [|ev evs]; [congruence|].
      inversion Hevs as [|? ? [data Hd] _]; subst.
      exists data. apply in_or_app. right. right. right. left. reflexivity.
Qed.

Lemma skip_is_not_honoured_witness :
  w_files Demo.fetched !! "/usr/share/wordlists/words/a.txt.gz"
  = Some (bytes_of_string "gzipped words")
  /\ String.eqb "SKIP" "SKIP" || skip_integrity_check Demo.cfg = true
  /\ exists h' w',
      integrity_check Demo.cfg "SKIP" "/usr/share/wordlists/words/a.txt.gz"
        Demo.fetched
      = (verdict "/usr/share/wordlists/words/a.txt.gz" "SKIP"
           (hashlib.hexdigest h'), w')
      /\ (0 < chunk_size Demo.cfg ->
          h' = hashlib.update hashlib.md5 (bytes_of_string "gzipped words"))
      /\ ("SKIP" = "SKIP" ->
          verdict "/usr/share/wordlists/words/a.txt.gz" "SKIP"
            (hashlib.hexdigest h')
          = Raise (OSError (os_path.basename "/usr/share/wordlists/words/a.txt.gz"
                            +:+ " integrity check -- failed")))
      /\ In (Warn (os_path.basename "/usr/share/wordlists/words/a.txt.gz"
                   +:+ " integrity check -- skipping")) (w_log w')
      /\ exists data,
           In (Read "/usr/share/wordlists/words/a.txt.gz" data) (w_log w').
Proof.
  split; [reflexivity|]. split; [reflexivity|].
  apply (skip_is_not_honoured Demo.cfg "SKIP"
           "/usr/share/wordlists/words/a.txt.gz"
           (bytes_of_string "gzipped words") Demo.fetched); reflexivity.
Defined.

(* ===================================================================== *)
(** ** The HTTP fetcher                                                  *)
(* ===================================================================== *)

(** C8.  When a file is already at the destination, [fetch_file] returns
    after a warning: no request is sent (the clock of requests and the log
    show none), the file system is as it was and the file has the content it
    had.  A second call from the world the first one leaves does the same. *)
Theorem fetch_file_present (cfg : config) (out : outside) (url path : string)
    (content : bytes) (w : world) :
  w_files w !! path = Some content ->
  let skipping := Warn (os_path.basename path +:+ " already exists -- skipping") in
  let w1 := with_log w (w_log w ++ [skipping]) in
  let w2 := with_log w (w_log w ++ [skipping; skipping]) in
  fetch_file cfg out url path w = (Ok tt, w1)
  /\ fetch_file cfg out url path w1 = (Ok tt, w2)
  /\ w_files w2 = w_files w /\ w_dirs w2 = w_dirs w
  /\ w_clock w2 = w_clock w
  /\ w_files w2 !! path = Some content.
Proof.
  intros Hfile skipping w1 w2.
  assert (Hskip : forall w0, w_files w0 !! path = Some content ->
            fetch_file cfg out url path w0
            = (Ok tt, with_log w0 (w_log w0 ++ [skipping]))).
  { intros w0 H0. unfold fetch_file, bind, check_file, os.isfile, get.
    rewrite H0. reflexivity. }
  split; [apply Hskip, Hfile|].
  split.
  - rewrite (Hskip w1 Hfile). subst w1 w2. unfold with_log. simpl.
    rewrite <- app_assoc. reflexivity.
  - repeat split; try reflexivity. exact Hfile.
Qed.

Lemma fetch_file_present_witness :
  w_files Demo.fetched !! "/usr/share/wordlists/words/a.txt.gz"
  = Some (bytes_of_string "gzipped words")
  /\ fetch_file Demo.cfg Demo.out "http://h/a.txt.gz"
       "/usr/share/wordlists/words/a.txt.gz" Demo.fetched
     = (Ok tt, with_log Demo.fetched [Warn "a.txt.gz already exists -- skipping"]).
Proof.
  split; [reflexivity|].
  apply (fetch_file_present Demo.cfg Demo.out "http://h/a.txt.gz"
           "/usr/share/wordlists/words/a.txt.gz"
           (bytes_of_string "gzipped words") Demo.fetched).
  reflexivity.
Defined.

(* ===================================================================== *)
(** ** The URL resolver                                                  *)
(* ===================================================================== *)

Lemma resolve_sourceforge_returns (out : outside) (url : string) (w : world) :
  exists s w', resolve_sourceforge out url w = (Ok s, w').
Proof.
  unfold resolve_sourceforge, try_bare.
  destruct (bind _ _ w) as [[s|e|c] w']; unfold ret; eauto.
Qed.

Lemma resolve_mediafire_returns (out : outside) (url : string) (w : world) :
  exists s w', resolve_mediafire out url w = (Ok s, w').
Proof.
  unfold resolve_mediafire, try_bare.
  destruct (bind _ _ w) as [[s|e|c] w']; unfold ret; eauto.
Qed.

(** As long as the resolver comes back with the empty string, the loop of
    [resolve] takes all the turns it has left. *)
Lemma resolve_while_empty (resolver : string -> M string) (url : string) :
  (forall w0, fst (resolver url w0) = Ok "") ->
  forall (left : nat) (w : world),
  exists w',
    resolve_while resolver url left "" w = (Ok "", w')
    /\ nsteps (empty_turn resolver url) left w w'.
Proof.
  intros Hempty. induction left as [|left IH]; intros w.
  - exists w. split; [reflexivity | constructor].
  - simpl. unfold bind at 1.
    pose proof (Hempty w) as Hw.
    destruct (resolver url w) as [r w1] eqn:Er. simpl in Hw. subst r.
    unfold bind at 1. unfold time_sleep at 1.
    destruct (IH (snd (log (Sleep 10) w1))) as (w' & Hrun & Hsteps).
    exists w'. split.
    + simpl. simpl in Hrun. exact Hrun.
    + eapply nsteps_l; [|exact Hsteps]. exists w1. split; [exact Er | reflexivity].
Qed.



(* ===================================================================== *)
(** ** Selection                                                         *)
(* ===================================================================== *)

Lemma repo_get_In (repo : catalog) (k : string) (c : category) :
  NoDup (keys repo) -> In (k, c) repo -> repo_get repo k = Some c.
Proof.
  induction repo as [|[k' c'] repo IH]; intros Hnd Hin; [destruct Hin|].
  simpl. inversion Hnd as [|? ? Hnotin Hnd']; subst.
  destruct Hin as [E|Hin].
  - inversion E; subst. rewrite String.eqb_refl. reflexivity.
  - destruct (String.eqb k' k) eqn:Ek.
    + apply String.eqb_eq in Ek. subst k'. exfalso. apply Hnotin.
      apply list_elem_of_In. unfold keys. apply in_map_iff.
      exists (k, c). split; [reflexivity | exact Hin].
    + apply IH; assumption.
Qed.

Lemma count_at_In (cfg : config) (k : string) (c : category) :
  NoDup (keys (wordlist_repo cfg)) -> In (k, c) (wordlist_repo cfg) ->
  count_at cfg k = c_count c.
Proof.
  intros Hnd Hin. unfold count_at. rewrite (repo_get_In _ _ _ Hnd Hin).
  reflexivity.
Qed.

Lemma cumulative_app (l1 l2 : catalog) :
  cumulative (l1 ++ l2) = cumulative l1 + cumulative l2.
Proof. induction l1 as [|x l1 IH]; simpl; [reflexivity | rewrite IH; lia]. Qed.

Lemma total_count_from (cfg : config) :
  NoDup (keys (wordlist_repo cfg)) ->
  forall (l : catalog) (acc : Z),
    incl l (wordlist_repo cfg) ->
    fold_left (fun n i => n + count_at cfg i) (keys l) acc = acc + cumulative l.
Proof.
  intros Hnd. induction l as [|[k c] l IH]; intros acc Hincl; simpl; [lia|].
  rewrite IH by (intros x Hx; apply Hincl; right; exact Hx).
  rewrite (count_at_In cfg k c Hnd) by (apply Hincl; left; reflexivity).
  simpl. lia.
Qed.

Lemma total_count_cumulative (cfg : config) :
  NoDup (keys (wordlist_repo cfg)) ->
  total_count cfg = cumulative (wordlist_repo cfg).
Proof.
  intros Hnd. unfold total_count.
  rewrite (total_count_from cfg Hnd) by apply incl_refl. lia.
Qed.

Lemma cumulative_length (l : catalog) :
  counts_cached l -> cumulative l = Z.of_nat (length (flattened l)).
Proof.
  unfold flattened. induction 1 as [|x l Hx _ IH]; simpl; [reflexivity|].
  rewrite length_app, IH, Hx. lia.
Qed.

Lemma cumulative_nonneg (l : catalog) : counts_cached l -> 0 <= cumulative l.
Proof. intros H. rewrite (cumulative_length l H). lia. Qed.

(** The loop stops at the first category whose running count goes beyond
    [wordlist_id - 1], and leaves with that running count. *)
Lemma find_category_stops (cfg : config) (wordlist_id : Z) :
  NoDup (keys (wordlist_repo cfg)) ->
  forall (l : catalog) (cat : string) (acc : Z),
    incl l (wordlist_repo cfg) ->
    counts_cached l ->
    acc < wordlist_id <= acc + cumulative l ->
    exists pre k c post,
      l = pre ++ (k, c) :: post
      /\ acc + cumulative pre < wordlist_id <= acc + cumulative pre + c_count c
      /\ find_category cfg (keys l) wordlist_id cat acc
         = (k, acc + cumulative pre + c_count c).
Proof.
  intros Hnd. induction l as [|[k c] l IH]; intros cat acc Hincl Hc Hid.
  - simpl in Hid. lia.
  - simpl. rewrite (count_at_In cfg k c Hnd) by (apply Hincl; left; reflexivity).
    destruct (wordlist_id - 1 <? acc + c_count c) eqn:Elt.
    + apply Z.ltb_lt in Elt. exists [], k, c, l. simpl.
      repeat split; try lia. f_equal. lia.
    + apply Z.ltb_ge in Elt. inversion Hc as [|? ? Hk Hc']; subst.
      destruct (IH cat (acc + c_count c)) as (pre & k' & c' & post & El & Hb & Hrun).
      * intros x Hx. apply Hincl. right. exact Hx.
      * exact Hc'.
      * simpl in Hid. lia.
      * exists ((k, c) :: pre), k', c', post. subst l. simpl.
        repeat split; try lia. rewrite Hrun. f_equal. lia.
Qed.

Lemma flattened_app (l1 l2 : catalog) :
  flattened (l1 ++ l2) = flattened l1 ++ flattened l2.
Proof. unfold flattened. rewrite map_app, concat_app. reflexivity. Qed.

(** C2.  In a well-formed catalog, with no category selected, an id between
    1 and the total count selects one category with one entry.  The
    category is the first whose cumulative count reaches the id (all the
    categories before it stay below), the entry is at offset [id - 1] less
    the cumulative count of the categories before, and it is the entry at
    index [id - 1] of the flattened catalog. *)
Theorem select_by_catalog_id (cfg : config) (code : string) (id : Z) (w : world) :
  well_formed (wordlist_repo cfg) ->
  selected_category cfg = "" ->
  1 <= id <= total_count cfg ->
  exists pre k c post j,
    wordlist_repo cfg = pre ++ (k, c) :: post
    /\ cumulative pre < id <= cumulative pre + c_count c
    /\ (forall p q, pre = p ++ q -> cumulative p < id)
    /\ c_files c !! Z.to_nat (id - 1 - cumulative pre) = Some j
    /\ flattened (wordlist_repo cfg) !! Z.to_nat (id - 1) = Some j
    /\ select cfg code id w = (Ok [(k, [j])], w).
Proof.
  intros [Hnd Hc] Hsel [Hlo Hhi].
  pose proof (total_count_cumulative cfg Hnd) as Htot.
  destruct (find_category_stops cfg id Hnd (wordlist_repo cfg) "" 0
              (incl_refl _) Hc ltac:(lia))
    as (pre & k & c & post & Erepo & Hb & Hrun).
  assert (Hcpre : counts_cached pre).
  { rewrite Erepo in Hc. apply Forall_app in Hc. apply Hc. }
  assert (Hck : c_count c = Z.of_nat (length (c_files c))).
  { rewrite Erepo in Hc. apply Forall_app in Hc. destruct Hc as [_ Hc].
    inversion Hc; subst. assumption. }
  assert (Hlen : cumulative pre = Z.of_nat (length (flattened pre)))
    by (apply cumulative_length, Hcpre).
  assert (Hj : exists j, c_files c !! Z.to_nat (id - 1 - cumulative pre) = Some j).
  { apply lookup_lt_is_Some. lia. }
  destruct Hj as [j Hj].
  exists pre, k, c, post, j.
  split; [exact Erepo|]. split; [lia|]. split.
  { intros p q E. subst pre. rewrite cumulative_app in Hb.
    apply Forall_app in Hcpre. destruct Hcpre as [_ Hq].
    pose proof (cumulative_nonneg q Hq). lia. }
  split; [exact Hj|]. split.
  - rewrite Erepo, flattened_app. change ((k, c) :: post) with ([(k, c)] ++ post).
    rewrite flattened_app. unfold flattened at 2. simpl. rewrite app_nil_r.
    rewrite lookup_app_r by lia. rewrite lookup_app_l by lia.
    rewrite <- Hj. f_equal. lia.
  - unfold select.
    replace ((id >=? total_count cfg + 1) || (id <? 0)) with false
      by (symmetry; apply orb_false_intro;
          [rewrite Z.geb_leb; apply Z.leb_gt | apply Z.ltb_ge]; lia).
    replace (id =? 0) with false by (symmetry; apply Z.eqb_neq; lia).
    rewrite Hsel. simpl. rewrite Hrun.
    unfold file_at, files_of, bind.
    rewrite (repo_get_In (wordlist_repo cfg) k c Hnd)
      by (rewrite Erepo; apply in_or_app; right; left; reflexivity).
    simpl. unfold py_index.
    replace (0 <=? id - 1 - (0 + cumulative pre + c_count c)) with false
      by (symmetry; apply Z.leb_gt; lia).
    replace (0 <=? Z.of_nat (length (c_files c))
                   + (id - 1 - (0 + cumulative pre + c_count c))) with true
      by (symmetry; apply Z.leb_le; lia).
    replace (Z.to_nat (Z.of_nat (length (c_files c))
                       + (id - 1 - (0 + cumulative pre + c_count c))))
      with (Z.to_nat (id - 1 - cumulative pre)) by lia.
    rewrite Hj. reflexivity.
Qed.

Lemma select_by_catalog_id_witness :
  well_formed (wordlist_repo Demo.cfg)
  /\ selected_category Demo.cfg = ""
  /\ 1 <= 2 <= total_count Demo.cfg
  /\ exists pre k c post j,
      wordlist_repo Demo.cfg = pre ++ (k, c) :: post
      /\ cumulative pre < 2 <= cumulative pre + c_count c
      /\ (forall p q, pre = p ++ q -> cumulative p < 2)
      /\ c_files c !! Z.to_nat (2 - 1 - cumulative pre) = Some j
      /\ flattened (wordlist_repo Demo.cfg) !! Z.to_nat (2 - 1) = Some j
      /\ select Demo.cfg "2" 2 Demo.w0 = (Ok [(k, [j])], Demo.w0).
Proof.
  assert (Hwf : well_formed (wordlist_repo Demo.cfg)).
  { split.
    - apply NoDup_cons. split; [|apply NoDup_singleton].
      intros H. apply list_elem_of_In in H. destruct H as [H|[]]. discriminate H.
    - repeat constructor. }
  assert (Hid : 1 <= 2 <= total_count Demo.cfg) by (vm_compute; split; discriminate).
  split; [exact Hwf|]. split; [reflexivity|]. split; [exact Hid|].
  exact (select_by_catalog_id Demo.cfg "2" 2 Demo.w0 Hwf eq_refl Hid).
Defined.

(** [check_dir] leaves a world alone when the directory is there; when it is
    not, it creates it, or reports that it cannot and exits. *)
Lemma check_dir_run (d : string) (w : world) :
  (d ∈ w_dirs w -> check_dir d w = (Ok tt, w))
  /\ (d ∉ w_dirs w ->
      (check_dir d w
       = (Ok tt,
          World ({[ d ]} ∪ w_dirs w) (w_files w) (w_cwd w) (w_heap w)
                (w_session w) (w_clock w)
                (w_log w ++ [Info ("creating directory " +:+ d)])))
      \/ (exists m,
           check_dir d w
           = (Exit (-1),
              with_log w (w_log w ++ [Info ("creating directory " +:+ d);
                                      Err ("unable to create directory: " +:+ m)])))).
Proof.
  split; intros Hd; unfold check_dir, try_except, bind, os.isdir, get.
  - rewrite bool_decide_eq_true_2 by exact Hd. destruct w; reflexivity.
  - rewrite bool_decide_eq_false_2 by exact Hd.
    unfold info, log, os.mkdir, bind, get. simpl.
    rewrite bool_decide_eq_false_2 by exact Hd. simpl.
    destruct (bool_decide (is_Some (w_files w !! d))); simpl.
    + right. eexists. unfold err, log, exit, with_log. simpl.
      rewrite <- app_assoc. reflexivity.
    + destruct (bool_decide (os_path.dirname d ∈ w_dirs w)); simpl.
      * left. reflexivity.
      * right. eexists. unfold err, log, exit, with_log. simpl.
        rewrite <- app_assoc. reflexivity.
Qed.

Lemma out_of_range (cfg : config) (id : Z) :
  id < 0 \/ total_count cfg < id ->
  (id >=? total_count cfg + 1) || (id <? 0) = true.
Proof.
  intros Hid. apply orb_true_iff. rewrite Z.geb_leb.
  destruct Hid; [right; apply Z.ltb_lt | left; apply Z.leb_le]; lia.
Qed.




(* ===================================================================== *)
(** ** The retry loop                                                    *)
(* ===================================================================== *)

(** The handler of [download_wordlist] returns: it reports the failure, and
    afterwards no file is left at [file_path]. *)
Lemma on_failure_run (wordlistname : string) (ex : exn) (file_path : string)
    (w : world) :
  exists w',
    on_failure wordlistname ex file_path w = (Ok tt, w')
    /\ w_files w' !! file_path = None
    /\ In (Err ("Error while downloading " +:+ wordlistname +:+ ": " +:+ str_exn ex))
          (w_log w').
Proof.
  unfold on_failure, bind at 1, err, log, remove, try_bare, os.remove, bind, get.
  simpl. destruct (w_files w !! file_path) eqn:Ef; simpl.
  - eexists. split; [reflexivity|]. simpl. split.
    + apply lookup_delete_eq.
    + apply in_or_app. right. left. reflexivity.
  - eexists. split; [reflexivity|]. simpl. split.
    + exact Ef.
    + apply in_or_app. right. left. reflexivity.
Qed.

Section retry_loop.

Context (cfg : config) (out : outside) (config : loc).
Context (wordlistname file_directory : string).

Let turn := failed_turn cfg out config wordlistname file_directory.

(** If the body raises from every state that failed turns lead to, the loop
    takes every turn it has, each of them a failed one, and returns. *)
Lemma retry_all_fail (turns : nat) :
  forall s : string * world,
    (forall s1, rtc turn s s1 ->
       exists ex fp w1,
         attempt cfg out config file_directory (fst s1) (snd s1) = (Raise ex, fp, w1)) ->
    exists s',
      retry cfg out turns config wordlistname file_directory (fst s) (snd s)
      = (Ok tt, snd s')
      /\ nsteps turn turns s s'.
Proof.
  induction turns as [|turns IH]; intros s Hraise.
  - exists s. split; [reflexivity | constructor].
  - destruct (Hraise s (rtc_refl _ _)) as (ex & fp & w1 & Hatt).
    destruct (on_failure_run wordlistname ex fp w1) as (w2 & Hfail & Hgone & Hrep).
    assert (Hturn : turn s (fp, w2)).
    { exists ex, w1. simpl. split; [exact Hatt|]. split; [exact Hfail|].
      split; [exact Hgone|]. eexists. exact Hrep. }
    destruct (IH (fp, w2)) as (s' & Hrun & Hsteps).
    { intros s1 Hs1. apply Hraise. eapply rtc_l; [exact Hturn | exact Hs1]. }
    exists s'. split.
    + simpl. rewrite Hatt. unfold bind at 1. rewrite Hfail. exact Hrun.
    + eapply nsteps_l; [exact Hturn | exact Hsteps].
Qed.

End retry_loop.


(** With no network and no file fetched earlier, the body of the [try]
    raises on the request. *)
Lemma offline_attempt (fp : string) (w : world) :
  w_heap w = [Demo.mirrors; Demo.gz] ->
  w_files w !! "/usr/share/wordlists/words/a.txt.gz" = None ->
  attempt Demo.cfg Demo.offline 1%nat "/usr/share/wordlists/words" fp w
  = (Raise (RequestException "connection error"),
     "/usr/share/wordlists/words/a.txt.gz",
     World (w_dirs w) (w_files w) (w_cwd w) (w_heap w) (w_session w)
           (S (w_clock w))
           (w_log w ++ [Info "downloading a.txt.gz to /usr/share/wordlists/words/a.txt.gz";
                        HttpGet "http://h/a.txt.gz"])).
Proof.
  intros Hheap Hfile. destruct w as [dirs files cwd heap session clock lg].
  simpl in Hheap, Hfile. subst heap.
  assert (Epath : "/usr/share/wordlists/words" +:+ "/"
                  +:+ Str.after_last_slash "http://h/a.txt.gz"
                  = "/usr/share/wordlists/words/a.txt.gz") by reflexivity.
  assert (Esort : py_sort ["http://h/a.txt.gz"] = ["http://h/a.txt.gz"])
    by reflexivity.
  unfold attempt, choose_url, deref, bind, get, from_some, set_heap. simpl.
  unfold checksum_of, deref, bind, get, from_some. simpl.
  unfold transfer. simpl.
  unfold fetch_file, bind, check_file, os.isfile, get. simpl.
  rewrite !Epath, Hfile, Esort. simpl. rewrite <- app_assoc. reflexivity.
Qed.

Lemma on_failure_heap (wordlistname : string) (ex : exn) (file_path : string)
    (w : world) (r : result unit) (w' : world) :
  on_failure wordlistname ex file_path w = (r, w') -> w_heap w' = w_heap w.
Proof.
  unfold on_failure, bind at 1, err, log, remove, try_bare, os.remove, bind, get.
  simpl. destruct (w_files w !! file_path); simpl; intros E; inversion E;
    reflexivity.
Qed.

Lemma offline_always_raises (s : string * world) :
  rtc (failed_turn Demo.cfg Demo.offline 1%nat "a" "/usr/share/wordlists/words")
      ("", Demo.w0) s ->
  exists ex fp w1,
    attempt Demo.cfg Demo.offline 1%nat "/usr/share/wordlists/words"
      (fst s) (snd s) = (Raise ex, fp, w1).
Proof.
  intros Hreach.
  assert (Hinv : w_heap (snd s) = [Demo.mirrors; Demo.gz]
                 /\ w_files (snd s) !! "/usr/share/wordlists/words/a.txt.gz" = None).
  { revert s Hreach.
    apply (rtc_ind_r (fun s : string * world =>
             w_heap (snd s) = [Demo.mirrors; Demo.gz]
             /\ w_files (snd s) !! "/usr/share/wordlists/words/a.txt.gz" = None)).
    - split; reflexivity.
    - intros y z Hy (ex & w1 & Hatt & Hfail & Hgone & _) IH.
      destruct IH as [Hheap Hfile].
      rewrite (offline_attempt (fst y) (snd y) Hheap Hfile) in Hatt.
      inversion Hatt as [[Eex Efp Ew1]]. rewrite <- Efp in Hgone.
      split; [|exact Hgone].
      rewrite (on_failure_heap _ _ _ _ _ _ Hfail), <- Ew1. exact Hheap. }
  destruct Hinv as [Hheap Hfile].
  rewrite (offline_attempt (fst s) (snd s) Hheap Hfile). eauto.
Qed.


(* ===================================================================== *)
(** ** Where the program departs from the specification                  *)
(* ===================================================================== *)

(** C3 (the code departs from it).  The two mirrors of the specification's
    example, each listed with the checksum of what it serves, and no
    preference for HTTP: the URL chosen is ["http://b/file"], whose checksum
    in the catalog is the first one, but the checksum handed on is the
    second one, that of ["http://a/file"].  The sort has reordered the
    entry's own list, and the index is looked up in the reordered list.  The
    file is fetched intact and refused. *)
Theorem checksum_follows_sorted_urls :
  let directory := "/usr/share/wordlists/misc" in
  let chosen :=
    (let* url := choose_url Demo.cfg 0%nat in
     let* csum := checksum_of 0%nat url in
     ret (url, csum)) Demo.w0 in
  prefer_http Demo.cfg = false
  /\ e_url Demo.mirrors = ["http://b/file"; "http://a/file"]
  /\ py_list_index "http://b/file" (e_url Demo.mirrors) = Some 0%nat
  /\ e_sum Demo.mirrors !! 0%nat = Some (Demo.md5_hex "content of b")
  /\ e_sum Demo.mirrors !! 1%nat = Some (Demo.md5_hex "content of a")
  /\ fst chosen = Ok ("http://b/file", Demo.md5_hex "content of a")
  /\ fst (attempt Demo.cfg Demo.out 0%nat directory "" Demo.w0)
     = (Raise (OSError "file integrity check -- failed"),
        "/usr/share/wordlists/misc/file")
  /\ w_files (snd (attempt Demo.cfg Demo.out 0%nat directory "" Demo.w0))
       !! "/usr/share/wordlists/misc/file"
     = Some (bytes_of_string "content of b").
Proof. vm_compute. repeat split. Qed.

(** C4 (the code departs from it).  After [download_wordlist] has run on
    the entry with the two mirrors, the entry in the store lists its URLs in
    another order than before, next to the same checksums. *)
Theorem retrieval_reorders_urls :
  let w' := snd (download_wordlist Demo.cfg Demo.out 0%nat "file" "misc" Demo.w0) in
  w_heap Demo.w0 !! 0%nat = Some Demo.mirrors
  /\ e_url Demo.mirrors = ["http://b/file"; "http://a/file"]
  /\ e_url <$> w_heap w' !! 0%nat = Some ["http://a/file"; "http://b/file"]
  /\ e_sum <$> w_heap w' !! 0%nat = Some (e_sum Demo.mirrors)
  /\ w_heap w' !! 0%nat <> w_heap Demo.w0 !! 0%nat.
Proof. vm_compute. repeat split. intros E. discriminate E. Qed.

(** C5 (the code departs from it).  [download_wordlist] never reads the
    flag of option [-X]: it does the same whatever the flag.  With the flag
    off, an entry fetched over HTTP and verified is decompressed. *)
Theorem http_path_always_decompresses :
  (forall cfg out b config wordlistname category w,
     download_wordlist (set_decompress_archive b cfg) out config wordlistname category w
     = download_wordlist cfg out config wordlistname category w)
  /\ decompress_archive Demo.cfg = false
  /\ (let w' := snd (download_wordlist Demo.cfg Demo.out 1%nat "a" "words" Demo.w0) in
      let archive := "/usr/share/wordlists/words/a.txt.gz" in
      w_log w'
      = [ Info "downloading a.txt.gz to /usr/share/wordlists/words/a.txt.gz";
          HttpGet "http://h/a.txt.gz";
          Success "downloading a.txt.gz completed";
          Info "checking a.txt.gz integrity";
          Read archive (bytes_of_string "gzipped words");
          Read archive [];
          Decompress archive;
          Info "decompressing a.txt.gz";
          Success "decompressing a.txt.gz completed" ]
      /\ w_files w' !! "/usr/share/wordlists/words/a.txt"
         = Some (bytes_of_string "words")).
Proof.
  split; [|split].
  - intros [] out b config wordlistname category w. reflexivity.
  - reflexivity.
  - vm_compute. split; reflexivity.
Qed.

(* ===================================================================== *)
(** ** What computations keep                                            *)
(* ===================================================================== *)

Section preservation.

Context (R : world -> world -> Prop) `{!PreOrder R}.

Lemma preserves_ret {A} (a : A) : preserves R (ret a).
Proof. intros w. reflexivity. Qed.

Lemma preserves_raise {A} (e : exn) : preserves R (@raise A e).
Proof. intros w. reflexivity. Qed.

Lemma preserves_exit {A} (c : Z) : preserves R (@exit A c).
Proof. intros w. reflexivity. Qed.

Lemma preserves_get {A} (f : world -> A) : preserves R (get f).
Proof. intros w. reflexivity. Qed.

Lemma preserves_from_some {A} (o : option A) (e : exn) :
  preserves R (from_some o e).
Proof. destruct o; intros w; reflexivity. Qed.

Lemma preserves_bind {A B} (m : M A) (k : A -> M B) :
  preserves R m -> (forall a, preserves R (k a)) -> preserves R (bind m k).
Proof.
  intros Hm Hk w. unfold bind. specialize (Hm w).
  destruct (m w) as [[a|e|c] w1]; simpl in *; [|exact Hm..].
  etransitivity; [exact Hm | apply Hk].
Qed.

Lemma preserves_try_except {A} (m : M A) (h : exn -> M A) :
  preserves R m -> (forall e, preserves R (h e)) -> preserves R (try_except m h).
Proof.
  intros Hm Hh w. unfold try_except. specialize (Hm w).
  destruct (m w) as [[a|e|c] w1]; simpl in *; [exact Hm| |exact Hm].
  etransitivity; [exact Hm | apply Hh].
Qed.

Lemma preserves_try_bare {A} (m h : M A) :
  preserves R m -> preserves R h -> preserves R (try_bare m h).
Proof.
  intros Hm Hh w. unfold try_bare. specialize (Hm w).
  destruct (m w) as [[a|e|c] w1]; simpl in *; [exact Hm|..];
    (etransitivity; [exact Hm | apply Hh]).
Qed.

Lemma preserves_for_each {A} (l : list A) (body : A -> M unit) :
  (forall a, preserves R (body a)) -> preserves R (for_each l body).
Proof.
  intros Hb. induction l as [|x l IH]; simpl.
  - apply preserves_ret.
  - apply preserves_bind; [apply Hb | intros _; exact IH].
Qed.

Lemma preserves_submit (task : M unit) :
  preserves R task -> preserves R (submit task).
Proof. intros Ht w. apply Ht. Qed.

End preservation.

#[local] Instance same_store_preorder : PreOrder same_store.
Proof.
  split.
  - intros w. repeat split.
  - intros w1 w2 w3 (? & ? & ? & ? & ?) (? & ? & ? & ? & ?).
    repeat split; congruence.
Qed.

#[local] Instance nothing_deleted_preorder : PreOrder nothing_deleted.
Proof.
  split.
  - intros w. split; reflexivity.
  - intros w1 w2 w3 [? ?] [? ?]. split; etransitivity; eassumption.
Qed.

#[local] Instance log_extended_preorder : PreOrder log_extended.
Proof.
  split.
  - intros w. exists []. symmetry. apply app_nil_r.
  - intros w1 w2 w3 [a1 H1] [a2 H2]. exists (a1 ++ a2).
    rewrite H2, H1. symmetry. apply app_assoc.
Qed.

Lemma never_exits_bind {A B} (m : M A) (k : A -> M B) :
  never_exits m -> (forall a, never_exits (k a)) -> never_exits (bind m k).
Proof.
  intros Hm Hk w c. unfold bind. specialize (Hm w).
  destruct (m w) as [[a|e|c'] w1]; simpl in *.
  - apply Hk.
  - discriminate.
  - exfalso. exact (Hm c' eq_refl).
Qed.

Lemma never_exits_try_bare {A} (m h : M A) :
  never_exits h -> never_exits (try_bare m h).
Proof.
  intros Hh w c. unfold try_bare.
  destruct (m w) as [[a|e|c'] w1]; simpl; [discriminate | apply Hh..].
Qed.

Lemma never_exits_for_each {A} (l : list A) (body : A -> M unit) :
  (forall a, never_exits (body a)) -> never_exits (for_each l body).
Proof.
  intros Hb. induction l as [|x l IH]; simpl.
  - intros w c. discriminate.
  - apply never_exits_bind; [apply Hb | intros _; exact IH].
Qed.

Lemma never_exits_from_some {A} (o : option A) (e : exn) :
  never_exits (from_some o e).
Proof. destruct o; intros w c; discriminate. Qed.

Lemma never_exits_ret {A} (a : A) : never_exits (ret a).
Proof. intros w c. discriminate. Qed.

Lemma never_exits_raise {A} (e : exn) : never_exits (@raise A e).
Proof. intros w c. discriminate. Qed.

Lemma never_exits_get {A} (f : world -> A) : never_exits (get f).
Proof. intros w c. discriminate. Qed.

Lemma never_exits_log (ev : event) : never_exits (log ev).
Proof. intros w c. discriminate. Qed.

Lemma never_exits_tick : never_exits tick.
Proof. intros w c. discriminate. Qed.

Lemma never_exits_set_fs dirs files : never_exits (set_fs dirs files).
Proof. intros w c. discriminate. Qed.

Lemma never_exits_set_cwd d : never_exits (set_cwd d).
Proof. intros w c. discriminate. Qed.

Lemma never_exits_set_heap h : never_exits (set_heap h).
Proof. intros w c. discriminate. Qed.

Lemma never_exits_set_session b : never_exits (set_session b).
Proof. intros w c. discriminate. Qed.

Create HintDb through.

(** One step in the proof that a computation built from the monad's
    operations never exits, or keeps a relation. *)
Ltac through_step :=
  cbv beta;
  match goal with
  | |- PreOrder _ => solve [apply _]
  | |- never_exits (bind _ _) => apply never_exits_bind; [|intros ?]
  | |- never_exits (ret _) => apply never_exits_ret
  | |- never_exits (raise _) => apply never_exits_raise
  | |- never_exits (get _) => apply never_exits_get
  | |- never_exits (log _) => apply never_exits_log
  | |- never_exits tick => apply never_exits_tick
  | |- never_exits (set_fs _ _) => apply never_exits_set_fs
  | |- never_exits (set_cwd _) => apply never_exits_set_cwd
  | |- never_exits (set_heap _) => apply never_exits_set_heap
  | |- never_exits (set_session _) => apply never_exits_set_session
  | |- never_exits (from_some _ _) => apply never_exits_from_some
  | |- never_exits (try_bare _ _) => apply never_exits_try_bare
  | |- never_exits (for_each _ _) => apply never_exits_for_each; intros ?
  | |- preserves _ (bind _ _) => apply preserves_bind; [apply _| |intros ?]
  | |- preserves _ (ret _) => apply preserves_ret
  | |- preserves _ (raise _) => apply preserves_raise
  | |- preserves _ (exit _) => apply preserves_exit
  | |- preserves _ (get _) => apply preserves_get
  | |- preserves _ (from_some _ _) => apply preserves_from_some
  | |- preserves _ (try_bare _ _) => apply preserves_try_bare
  | |- preserves _ (try_except _ _) =>
      apply preserves_try_except; [apply _| |intros ?]
  | |- preserves _ (for_each _ _) =>
      apply preserves_for_each; [apply _|intros ?]
  | |- never_exits _ => solve [auto with through]
  | |- preserves _ _ => solve [auto with through]
  | |- _ (if ?b then _ else _) => destruct b
  | |- _ (match ?x with _ => _ end) => destruct x
  end.

Ltac through := repeat through_step.

Lemma never_exits_os_open_rb p : never_exits (os.open_rb p).
Proof. unfold os.open_rb. through. Qed.

Lemma never_exits_os_open_wb p : never_exits (os.open_wb p).
Proof. unfold os.open_wb. through. Qed.

Lemma never_exits_os_write p data : never_exits (os.write p data).
Proof. unfold os.write. through. Qed.

Lemma never_exits_os_chdir d : never_exits (os.chdir d).
Proof. unfold os.chdir. through. Qed.

Lemma never_exits_os_isfile p : never_exits (os.isfile p).
Proof. unfold os.isfile. through. Qed.

Lemma never_exits_remove p : never_exits (remove p).
Proof. unfold remove. through. Qed.

#[local] Hint Resolve never_exits_os_open_rb never_exits_os_open_wb
  never_exits_os_write never_exits_os_chdir never_exits_os_isfile
  never_exits_remove : through.

Lemma never_exits_requests_get out url : never_exits (requests_get out url).
Proof. unfold requests_get. through. Qed.

Lemma never_exits_requests_head out url : never_exits (requests_head out url).
Proof. unfold requests_head. through. Qed.

Lemma never_exits_extract_members members : never_exits (extract_members members).
Proof. unfold extract_members. through. Qed.

#[local] Hint Resolve never_exits_requests_get never_exits_requests_head
  never_exits_extract_members : through.

Lemma never_exits_decompress out filepath : never_exits (decompress out filepath).
Proof. unfold decompress, info, success. through. Qed.

Lemma always_returns_never_exits {A} (m : M A) :
  always_returns m -> never_exits m.
Proof. intros H w c E. destruct (H w) as [a Ha]. congruence. Qed.

(** The loop of [resolve] returns whenever the resolver does. *)
Lemma resolve_while_returns (resolver : string -> M string) (url : string) :
  always_returns (resolver url) ->
  forall left resolved, always_returns (resolve_while resolver url left resolved).
Proof.
  intros Hres. induction left as [|left IH]; intros resolved w; simpl.
  - eexists. reflexivity.
  - destruct (String.eqb resolved ""); [|eexists; reflexivity].
    unfold bind at 1. destruct (Hres w) as [s Hs].
    destruct (resolver url w) as [r w1]. simpl in Hs. subst r.
    unfold bind at 1, time_sleep at 1. simpl. apply IH.
Qed.

Lemma resolve_returns (out : outside) (url : string) :
  always_returns (resolve out url).
Proof.
  unfold resolve, resolver_for.
  destruct (Str.startswith url "http://downloads.sourceforge.net/").
  - apply resolve_while_returns. intros w.
    destruct (resolve_sourceforge_returns out url w) as (s & w' & E).
    exists s. rewrite E. reflexivity.
  - destruct (Str.startswith url "http://www.mediafire.com/file/").
    + apply resolve_while_returns. intros w.
      destruct (resolve_mediafire_returns out url w) as (s & w' & E).
      exists s. rewrite E. reflexivity.
    + intros w. eexists. reflexivity.
Qed.

Lemma never_exits_resolve out url : never_exits (resolve out url).
Proof. apply always_returns_never_exits, resolve_returns. Qed.

#[local] Hint Resolve never_exits_decompress never_exits_resolve : through.

Lemma never_exits_fetch_file cfg out url path :
  never_exits (fetch_file cfg out url path).
Proof. unfold fetch_file, check_file, warn, info, success. through. Qed.

Lemma never_exits_read_all cfg path :
  forall fuel h rest, never_exits (read_all cfg fuel path h rest).
Proof.
  intros fuel h rest w c.
  destruct (read_all_run cfg path fuel h rest w) as (h' & evs & E & _).
  rewrite E. discriminate.
Qed.

#[local] Hint Resolve never_exits_fetch_file never_exits_read_all : through.

Lemma never_exits_integrity_check cfg checksum path :
  never_exits (integrity_check cfg checksum path).
Proof. unfold integrity_check, info, warn. through. Qed.

#[local] Hint Resolve never_exits_integrity_check : through.

(** [integrity_check] changes nothing but the log, and raises when there is
    no file to read. *)
Lemma integrity_check_frame (cfg : config) (checksum path : string) (w : world) :
  same_store w (snd (integrity_check cfg checksum path w))
  /\ w_clock (snd (integrity_check cfg checksum path w)) = w_clock w
  /\ log_extended w (snd (integrity_check cfg checksum path w))
  /\ (w_files w !! path = None ->
      fst (integrity_check cfg checksum path w)
      = Raise (OSError ("[Errno 2] No such file or directory: '" +:+ path +:+ "'"))).
Proof.
  destruct (w_files w !! path) as [content|] eqn:Efile.
  - destruct (integrity_check_run cfg checksum path content w Efile)
      as (h' & evs & Hrun & _).
    rewrite Hrun. simpl.
    split; [repeat split|]. split; [reflexivity|].
    split; [eexists; reflexivity | discriminate].
  - unfold integrity_check, os.open_rb, bind, info, warn, log, ret, get, from_some.
    destruct (String.eqb checksum "SKIP" || skip_integrity_check cfg); simpl;
      rewrite Efile; simpl;
      (split; [repeat split|]; split; [reflexivity|];
       split; [eexists; rewrite <- ?app_assoc; reflexivity | reflexivity]).
Qed.

Lemma fetch_torrent_tail_never_exits (out : outside) (path : string)
    (handle : option (string * bytes)) :
  never_exits
    (match handle with
     | None => ret tt
     | Some (name, payload) =>
         let outfilename := os_path.dirname path +:+ "/" +:+ name in
         info ("downloading " +:+ name +:+ " to " +:+ outfilename) >>
         let* dirs := get w_dirs in
         let* files := get w_files in
         set_fs dirs (<[ outfilename := payload ]> files) >>
         success ("downloading " +:+ name +:+ " completed") >>
         decompress out outfilename
     end).
Proof. destruct handle as [[name payload]|]; unfold info, success; through. Qed.

(** [fetch_torrent] leaves through [exit] in one case only: torrent
    downloads are enabled, the URL is no magnet link and there is no file at
    [path]. *)
Lemma fetch_torrent_exit (cfg : config) (out : outside) (url path : string)
    (w : world) (c : Z) :
  fst (fetch_torrent cfg out url path w) = Exit c ->
  Str.startswith url "magnet:?" = false /\ torrent_dl cfg = true
  /\ w_files w !! path = None /\ c = -1.
Proof.
  unfold fetch_torrent. unfold bind at 1, get at 1. cbv beta iota.
  unfold bind at 1.
  set (w1 := World (w_dirs w) (w_files w) (w_cwd w) (w_heap w) true
                   (w_clock w) (w_log w)).
  assert (Hinit : exists w0, (if w_session w then ret tt else set_session true) w
                             = (Ok tt, w0) /\ w_files w0 = w_files w).
  { destruct (w_session w); eexists; split; reflexivity. }
  destruct Hinit as (w0 & -> & Hfiles). clear w1.
  pose proof (fetch_torrent_tail_never_exits out path) as Htail.
  destruct (Str.startswith url "magnet:?") eqn:Emagnet; cbv iota.
  - intros E. exfalso. revert E.
    match goal with
    | |- fst (bind ?m ?k ?w') = Exit _ -> _ =>
        intros E; refine (never_exits_bind m k _ Htail w' c E)
    end.
    unfold info, success. through.
  - destruct (torrent_dl cfg) eqn:Edl; simpl negb; cbv iota.
    + unfold bind at 1, bind at 1, os.isfile, get at 1. cbv beta iota.
      rewrite Hfiles.
      destruct (w_files w !! path) eqn:Efile.
      * intros E. exfalso. revert E.
        match goal with
        | |- fst (let (_, _) := ?m ?w' in _) = Exit _ -> _ =>
            change (fst (bind m
              (fun handle : option (string * bytes) =>
                 match handle with
                 | None => ret tt
                 | Some (name, payload) =>
                     let outfilename := os_path.dirname path +:+ "/" +:+ name in
                     info ("downloading " +:+ name +:+ " to " +:+ outfilename) >>
                     let* dirs := get w_dirs in
                     let* files := get w_files in
                     set_fs dirs (<[ outfilename := payload ]> files) >>
                     success ("downloading " +:+ name +:+ " completed") >>
                     decompress out outfilename
                 end) w') = Exit c -> False);
            intros E;
            refine (never_exits_bind m _ _ Htail w' c E)
        end.
        through.
      * unfold err, log, exit. simpl. intros E. inversion E. auto.
    + intros E. exfalso. revert E.
      match goal with
      | |- fst (bind ?m ?k ?w') = Exit _ -> _ =>
          intros E; refine (never_exits_bind m k _ Htail w' c E)
      end.
      through.
Qed.

Lemma integrity_check_ok_file (cfg : config) (checksum path : string)
    (w w' : world) :
  integrity_check cfg checksum path w = (Ok tt, w') ->
  is_Some (w_files w' !! path).
Proof.
  intros E.
  destruct (integrity_check_frame cfg checksum path w)
    as ((_ & Hfiles & _) & _ & _ & Hmissing).
  rewrite E in Hfiles, Hmissing. simpl in Hfiles, Hmissing. rewrite Hfiles.
  destruct (w_files w !! path) eqn:Ef; [eauto|].
  specialize (Hmissing eq_refl). discriminate Hmissing.
Qed.

Lemma transfer_never_exits (cfg : config) (out : outside)
    (url csum file_path : string) :
  never_exits (transfer cfg out url csum file_path).
Proof.
  unfold transfer.
  destruct (Str.startswith url "http"); [through|].
  destruct (Str.startswith (Str.replace url "torrent+" "") "magnet:?") eqn:Emagnet.
  - intros w c E. apply fetch_torrent_exit in E. destruct E as [E _]. congruence.
  - intros w c. unfold bind at 1.
    pose proof (never_exits_fetch_file cfg out (Str.replace url "torrent+" "")
                  file_path w) as Hfetch.
    destruct (fetch_file cfg out (Str.replace url "torrent+" "") file_path w)
      as [[[]|e|c'] w1]; simpl in *; [|discriminate|exfalso; exact (Hfetch c' eq_refl)].
    unfold bind at 1.
    pose proof (never_exits_integrity_check cfg csum file_path w1) as Hcheck.
    destruct (integrity_check cfg csum file_path w1) as [[[]|e|c'] w2] eqn:Echeck;
      simpl in *; [|discriminate|exfalso; exact (Hcheck c' eq_refl)].
    intros E. apply fetch_torrent_exit in E. destruct E as (_ & _ & Enone & _).
    apply integrity_check_ok_file in Echeck. rewrite Enone in Echeck.
    destruct Echeck as [? ?]. discriminate.
Qed.

(** The body of the [try] never leaves through [exit]. *)
Lemma attempt_never_exits (cfg : config) (out : outside) (config : loc)
    (file_directory file_path : string) (w : world) (c : Z) :
  fst (fst (attempt cfg out config file_directory file_path w)) <> Exit c.
Proof.
  unfold attempt.
  assert (Hchoose : never_exits (choose_url cfg config))
    by (unfold choose_url, deref; through).
  specialize (Hchoose w).
  destruct (choose_url cfg config w) as [[url|e|c'] w1]; simpl in *;
    [|discriminate|exfalso; exact (Hchoose c' eq_refl)].
  assert (Hrest : never_exits
            (let* csum := checksum_of config url in
             transfer cfg out url csum
               (file_directory +:+ "/" +:+ Str.after_last_slash url))).
  { apply never_exits_bind; [unfold checksum_of, deref; through|].
    intros csum. apply transfer_never_exits. }
  specialize (Hrest w1 c).
  destruct ((let* csum := checksum_of config url in _) w1) as [r w2].
  exact Hrest.
Qed.

Section retry_loop_in_general.

Context (cfg : config) (out : outside) (config : loc).
Context (wordlistname file_directory : string).

Let turn := failed_turn cfg out config wordlistname file_directory.

(** The loop makes failed turns until the body returns or the turns are
    used up, and returns in both cases. *)
Lemma retry_decomposes (turns : nat) :
  forall s : string * world,
  exists (k : nat) (s' : string * world) (w' : world),
    retry cfg out turns config wordlistname file_directory (fst s) (snd s)
    = (Ok tt, w')
    /\ nsteps turn k s s'
    /\ ((k = turns /\ w' = snd s')
        \/ ((k < turns)%nat
            /\ exists fp,
                attempt cfg out config file_directory (fst s') (snd s')
                = (Ok tt, fp, w'))).
Proof.
  induction turns as [|turns IH]; intros s.
  - exists O, s, (snd s). split; [reflexivity|].
    split; [constructor | left; split; reflexivity].
  - simpl.
    pose proof (attempt_never_exits cfg out config file_directory (fst s) (snd s))
      as Hexit.
    destruct (attempt cfg out config file_directory (fst s) (snd s))
      as [[[[]|ex|c] fp] w1] eqn:Hatt; simpl in Hexit.
    + exists O, s, w1. split; [reflexivity|]. split; [constructor|].
      right. split; [lia|]. exists fp. exact Hatt.
    + destruct (on_failure_run wordlistname ex fp w1) as (w2 & Hfail & Hgone & Hrep).
      assert (Hturn : turn s (fp, w2)).
      { exists ex, w1. simpl. split; [exact Hatt|]. split; [exact Hfail|].
        split; [exact Hgone|]. eexists. exact Hrep. }
      destruct (IH (fp, w2)) as (k & s' & w' & Hrun & Hsteps & Hend).
      exists (S k), s', w'. unfold bind at 1. rewrite Hfail.
      split; [exact Hrun|]. split; [eapply nsteps_l; eassumption|].
      destruct Hend as [[-> ->]|[Hlt Hok]]; [left; split; reflexivity|].
      right. split; [lia | exact Hok].
    + exfalso. exact (Hexit c eq_refl).
Qed.

End retry_loop_in_general.




Lemma same_store_log (ev : event) : preserves same_store (log ev).
Proof. intros w. repeat split. Qed.

Lemma same_store_tick : preserves same_store tick.
Proof. intros w. repeat split. Qed.

#[local] Hint Resolve same_store_log same_store_tick : through.

Lemma same_store_requests_get out url : preserves same_store (requests_get out url).
Proof. unfold requests_get. through. Qed.

Lemma same_store_requests_head out url : preserves same_store (requests_head out url).
Proof. unfold requests_head. through. Qed.

#[local] Hint Resolve same_store_requests_get same_store_requests_head : through.

Lemma same_store_resolve_sourceforge out url :
  preserves same_store (resolve_sourceforge out url).
Proof. unfold resolve_sourceforge. through. Qed.

Lemma same_store_resolve_mediafire out url :
  preserves same_store (resolve_mediafire out url).
Proof. unfold resolve_mediafire. through. Qed.

Lemma same_store_resolve_while (resolver : string -> M string) (url : string) :
  preserves same_store (resolver url) ->
  forall left resolved,
    preserves same_store (resolve_while resolver url left resolved).
Proof.
  intros Hres. induction left as [|left IH]; intros resolved; simpl.
  - through.
  - unfold time_sleep. through; try apply IH.
Qed.

Lemma same_store_resolve out url : preserves same_store (resolve out url).
Proof.
  unfold resolve, resolver_for.
  destruct (Str.startswith url "http://downloads.sourceforge.net/");
    [apply same_store_resolve_while, same_store_resolve_sourceforge|].
  destruct (Str.startswith url "http://www.mediafire.com/file/");
    [apply same_store_resolve_while, same_store_resolve_mediafire|].
  through.
Qed.

(** X3.  [resolve] is harmless: for every URL and every network it returns
    a string, never raises and never exits, and it leaves the directories,
    the files, the entries of the catalog and the torrent session as they
    were. *)
Theorem resolve_is_harmless (out : outside) (url : string) (w : world) :
  exists s w',
    resolve out url w = (Ok s, w') /\ same_store w w'.
Proof.
  destruct (resolve_returns out url w) as [s Hs].
  pose proof (same_store_resolve out url w) as Hstore.
  destruct (resolve out url w) as [r w']. simpl in *. subst r.
  exists s, w'. split; [reflexivity | exact Hstore].
Qed.

Lemma resolve_while_answered (resolver : string -> M string) (url : string)
    (left : nat) (s : string) (w : world) :
  s <> "" -> resolve_while resolver url left s w = (Ok s, w).
Proof.
  intros Hs. apply String.eqb_neq in Hs.
  destruct left; simpl; [|rewrite Hs]; reflexivity.
Qed.

Lemma resolve_while_first_answer (resolver : string -> M string) (url : string) :
  always_returns (resolver url) ->
  forall (left : nat) (w : world),
  exists (k : nat) (s : string) (wk w' : world),
    resolve_while resolver url left "" w = (Ok s, w')
    /\ nsteps (empty_turn resolver url) k w wk
    /\ ((s = "" /\ k = left /\ w' = wk)
        \/ (s <> "" /\ (k < left)%nat
            /\ exists w1, resolver url wk = (Ok s, w1)
                          /\ w' = snd (log (Sleep 10) w1))).
Proof.
  intros Hret. induction left as [|left IH]; intros w.
  - exists O, "", w, w. split; [reflexivity|]. split; [constructor|].
    left. repeat split.
  - simpl. unfold bind at 1. destruct (Hret w) as [s1 Hs1].
    destruct (resolver url w) as [r w1] eqn:Er. simpl in Hs1. subst r.
    unfold bind at 1, time_sleep at 1.
    destruct (String.eqb_spec s1 "") as [->|Hne].
    + destruct (IH (snd (log (Sleep 10) w1)))
        as (k & s & wk & w' & Hrun & Hsteps & Hend).
      exists (S k), s, wk, w'. split; [exact Hrun|].
      split. { eapply nsteps_l; [|exact Hsteps]. exists w1. split; [exact Er|reflexivity]. }
      destruct Hend as [(-> & -> & ->)|(Hs & Hlt & Hw1)].
      * left. repeat split.
      * right. split; [exact Hs|]. split; [lia | exact Hw1].
    + exists O, s1, w, (snd (log (Sleep 10) w1)).
      split. { simpl. apply resolve_while_answered, Hne. }
      split; [constructor|]. right. split; [exact Hne|]. split; [lia|].
      exists w1. split; [exact Er | reflexivity].
Qed.

(** X4.  For a URL of one of the two hosts that need a resolver, [resolve]
    returns the first non-empty answer of the resolver: every call before it
    came back empty and was followed by a pause of ten seconds, no call is
    made after it, and the pause of ten seconds is taken after the answer
    too.  It returns the empty string only after ten empty calls. *)
Theorem resolve_first_answer (out : outside) (url : string)
    (resolver : string -> M string) (w : world) :
  resolver_for out url = Some resolver ->
  exists (k : nat) (s : string) (wk w' : world),
    resolve out url w = (Ok s, w')
    /\ nsteps (empty_turn resolver url) k w wk
    /\ ((s = "" /\ k = 10%nat /\ w' = wk)
        \/ (s <> "" /\ (k < 10)%nat
            /\ exists w1, resolver url wk = (Ok s, w1)
                          /\ w' = snd (log (Sleep 10) w1))).
Proof.
  intros Hres. unfold resolve. rewrite Hres.
  apply resolve_while_first_answer.
  unfold resolver_for in Hres.
  destruct (Str.startswith url "http://downloads.sourceforge.net/").
  - inversion Hres; subst. intros w0.
    destruct (resolve_sourceforge_returns out url w0) as (s & w' & E).
    exists s. rewrite E. reflexivity.
  - destruct (Str.startswith url "http://www.mediafire.com/file/"); [|discriminate].
    inversion Hres; subst. intros w0.
    destruct (resolve_mediafire_returns out url w0) as (s & w' & E).
    exists s. rewrite E. reflexivity.
Qed.

(* ===================================================================== *)
(** ** Downloading                                                       *)
(* ===================================================================== *)

(** The pieces of a body put together again are the body, whatever the
    chunk size. *)
Lemma iter_content_concat (n : Z) :
  forall (fuel : nat) (body : bytes),
    (length body <= fuel)%nat -> concat (iter_content fuel n body) = body.
Proof.
  induction fuel as [|fuel IH]; intros body Hlen.
  - destruct body; [reflexivity | simpl in Hlen; lia].
  - simpl. destruct body as [|b body]; [reflexivity|].
    destruct (n <=? 0) eqn:En.
    + simpl. rewrite app_nil_r. reflexivity.
    + apply Z.leb_gt in En. simpl concat. rewrite IH.
      * apply take_drop.
      * rewrite length_drop. simpl in Hlen |- *. lia.
Qed.

(** Writing pieces one after the other to a file leaves the file with what
    it held followed by the pieces. *)
Lemma write_pieces (path : string) :
  forall (pieces : list bytes) (w : world) (held : bytes),
    w_files w !! path = Some held ->
    for_each pieces (os.write path) w
    = (Ok tt,
       World (w_dirs w) (<[ path := held ++ concat pieces ]> (w_files w))
             (w_cwd w) (w_heap w) (w_session w) (w_clock w) (w_log w)).
Proof.
  induction pieces as [|piece pieces IH]; intros w held Hheld.
  - simpl. rewrite app_nil_r, insert_id by exact Hheld. destruct w; reflexivity.
  - simpl for_each. unfold bind at 1.
    assert (Hwrite : os.write path piece w
              = (Ok tt,
                 World (w_dirs w) (<[ path := held ++ piece ]> (w_files w))
                       (w_cwd w) (w_heap w) (w_session w) (w_clock w) (w_log w))).
    { unfold os.write, bind, get, set_fs. simpl. do 2 f_equal.
      apply map_eq. intros k. destruct (decide (k = path)) as [->|Hk].
      - rewrite lookup_alter_eq, lookup_insert_eq, Hheld. reflexivity.
      - rewrite lookup_alter_ne, lookup_insert_ne by congruence. reflexivity. }
    rewrite Hwrite, (IH _ (held ++ piece)) by (simpl; apply lookup_insert_eq).
    simpl. rewrite insert_insert_eq, <- app_assoc. reflexivity.
Qed.

(** What [fetch_file] does for a plain URL when there is no file at the
    destination yet. *)
Lemma fetch_file_run (cfg : config) (out : outside) (url path : string)
    (w : world) :
  w_files w !! path = None ->
  path ∉ w_dirs w ->
  os_path.dirname path ∈ w_dirs w ->
  resolver_for out url = None ->
  url <> "" ->
  let started :=
    w_log w ++ [Info ("downloading " +:+ os_path.basename path +:+ " to " +:+ path);
                HttpGet url] in
  fetch_file cfg out url path w =
    match http_get out (w_clock w) url with
    | None =>
        (Raise (RequestException "connection error"),
         World (w_dirs w) (w_files w) (w_cwd w) (w_heap w) (w_session w)
               (S (w_clock w)) started)
    | Some rq =>
        if r_broken rq then
          (Raise (RequestException "connection broken"),
           World (w_dirs w) (<[ path := r_body rq ]> (w_files w)) (w_cwd w)
                 (w_heap w) (w_session w) (S (w_clock w)) started)
        else
          (Ok tt,
           World (w_dirs w) (<[ path := r_body rq ]> (w_files w)) (w_cwd w)
                 (w_heap w) (w_session w) (S (w_clock w))
                 (started ++ [Success ("downloading " +:+ os_path.basename path
                                        +:+ " completed")]))
    end.
Proof.
  intros Hfile Hnodir Hparent Hplain Hurl started.
  unfold fetch_file, bind at 1, check_file, os.isfile, get at 1.
  rewrite Hfile. cbv beta iota.
  unfold bind at 1, info at 1, log at 1. cbv beta iota.
  unfold bind at 1, resolve. rewrite Hplain. unfold ret at 1. cbv beta iota.
  unfold bind at 1, requests_get.
  apply String.eqb_neq in Hurl. rewrite Hurl.
  unfold bind at 1, tick at 1. cbv beta iota.
  unfold bind at 1, log at 1. cbv beta iota. simpl w_clock.
  destruct (http_get out (w_clock w) url) as [rq|]; simpl from_some.
  - unfold ret at 1. cbv beta iota.
    unfold bind at 1, os.open_wb, bind at 1, get at 1. cbv beta iota.
    unfold bind at 1, get at 1. cbv beta iota. simpl w_dirs. simpl w_files.
    rewrite bool_decide_eq_false_2 by exact Hnodir.
    rewrite bool_decide_eq_true_2 by exact Hparent.
    unfold set_fs at 1. cbv beta iota. simpl.
    unfold bind at 1.
    rewrite (write_pieces path _ _ []) by (simpl; apply lookup_insert_eq).
    simpl. rewrite insert_insert_eq.
    rewrite iter_content_concat by lia.
    subst started.
    destruct (r_broken rq); unfold bind, ret, raise, success, log; simpl;
      rewrite <- ?app_assoc; reflexivity.
  - unfold raise. subst started. rewrite <- app_assoc. reflexivity.
Qed.

(** X5.  [fetch_file] for a plain URL, with no file at the destination yet:
    if the request fails, it raises and no file appears; otherwise the file
    holds exactly the bytes that were delivered, whatever the chunk size,
    also when the connection broke, in which case [fetch_file] raises and
    leaves the partial file.  One request is sent in each case. *)
Theorem fetch_file_writes_what_arrives (cfg : config) (out : outside)
    (url path : string) (w : world) :
  w_files w !! path = None ->
  path ∉ w_dirs w ->
  os_path.dirname path ∈ w_dirs w ->
  resolver_for out url = None ->
  url <> "" ->
  exists r w',
    fetch_file cfg out url path w = (r, w')
    /\ w_dirs w' = w_dirs w /\ w_heap w' = w_heap w
    /\ w_clock w' = S (w_clock w)
    /\ match http_get out (w_clock w) url with
       | None =>
           r = Raise (RequestException "connection error")
           /\ w_files w' = w_files w
       | Some rq =>
           r = (if r_broken rq
                then Raise (RequestException "connection broken") else Ok tt)
           /\ w_files w' = <[ path := r_body rq ]> (w_files w)
       end.
Proof.
  intros Hfile Hnodir Hparent Hplain Hurl.
  rewrite (fetch_file_run cfg out url path w Hfile Hnodir Hparent Hplain Hurl).
  destruct (http_get out (w_clock w) url) as [rq|].
  - destruct (r_broken rq); eexists _, _; (split; [reflexivity|]);
      repeat split.
  - eexists _, _. split; [reflexivity|]. repeat split.
Qed.

Lemma fetch_file_writes_what_arrives_witness :
  w_files Demo.w0 !! "/usr/share/wordlists/words/a.txt.gz" = None
  /\ ("/usr/share/wordlists/words/a.txt.gz" ∉ w_dirs Demo.w0)
  /\ os_path.dirname "/usr/share/wordlists/words/a.txt.gz" ∈ w_dirs Demo.w0
  /\ resolver_for Demo.out "http://h/a.txt.gz" = None
  /\ "http://h/a.txt.gz" <> ""
  /\ exists r w',
      fetch_file (Demo.cfg_chunk 4) Demo.out "http://h/a.txt.gz"
        "/usr/share/wordlists/words/a.txt.gz" Demo.w0 = (r, w')
      /\ w_dirs w' = w_dirs Demo.w0 /\ w_heap w' = w_heap Demo.w0
      /\ w_clock w' = S (w_clock Demo.w0)
      /\ match http_get Demo.out (w_clock Demo.w0) "http://h/a.txt.gz" with
         | None =>
             r = Raise (RequestException "connection error")
             /\ w_files w' = w_files Demo.w0
         | Some rq =>
             r = (if r_broken rq
                  then Raise (RequestException "connection broken") else Ok tt)
             /\ w_files w'
                = <[ "/usr/share/wordlists/words/a.txt.gz" := r_body rq ]>
                    (w_files Demo.w0)
         end.
Proof.
  assert (H1 : w_files Demo.w0 !! "/usr/share/wordlists/words/a.txt.gz" = None)
    by reflexivity.
  assert (H2 : "/usr/share/wordlists/words/a.txt.gz" ∉ w_dirs Demo.w0)
    by (refine (bool_decide_eq_false_1 _ _); reflexivity).
  assert (H3 : os_path.dirname "/usr/share/wordlists/words/a.txt.gz" ∈ w_dirs Demo.w0)
    by (refine (bool_decide_eq_true_1 _ _); reflexivity).
  assert (H4 : resolver_for Demo.out "http://h/a.txt.gz" = None) by reflexivity.
  assert (H5 : "http://h/a.txt.gz" <> "") by discriminate.
  split; [exact H1|]. split; [exact H2|]. split; [exact H3|].
  split; [exact H4|]. split; [exact H5|].
  exact (fetch_file_writes_what_arrives (Demo.cfg_chunk 4) Demo.out
           "http://h/a.txt.gz" "/usr/share/wordlists/words/a.txt.gz" Demo.w0
           H1 H2 H3 H4 H5).
Defined.

(** X6.  Fetching and then verifying: when the body arrives whole,
    [integrity_check] on the file [fetch_file] wrote returns if the checksum
    is the md5 of the body that was served, and raises the integrity
    failure for any other checksum. *)
Theorem fetch_then_verify (cfg : config) (out : outside)
    (url path checksum : string) (rq : response) (w : world) :
  w_files w !! path = None ->
  path ∉ w_dirs w ->
  os_path.dirname path ∈ w_dirs w ->
  resolver_for out url = None ->
  url <> "" ->
  http_get out (w_clock w) url = Some rq ->
  r_broken rq = false ->
  0 < chunk_size cfg ->
  fst ((fetch_file cfg out url path >> integrity_check cfg checksum path) w)
  = verdict path checksum
      (hashlib.hexdigest (hashlib.update hashlib.md5 (r_body rq))).
Proof.
  intros Hfile Hnodir Hparent Hplain Hurl Hget Hwhole Hchunk.
  unfold bind.
  rewrite (fetch_file_run cfg out url path w Hfile Hnodir Hparent Hplain Hurl).
  rewrite Hget, Hwhole.
  match goal with |- context [integrity_check _ _ _ ?w1] =>
    destruct (integrity_check_run cfg checksum path (r_body rq) w1)
      as (h' & evs & Hrun & _ & _ & Hh);
      [simpl; apply lookup_insert_eq|]
  end.
  rewrite Hrun, (Hh Hchunk). reflexivity.
Qed.

Lemma fetch_then_verify_witness :
  fst ((fetch_file (Demo.cfg_chunk 4) Demo.out "http://h/a.txt.gz"
          "/usr/share/wordlists/words/a.txt.gz"
        >> integrity_check (Demo.cfg_chunk 4) "50a0fcdf2890cc1b1dfcbd7866755720"
             "/usr/share/wordlists/words/a.txt.gz") Demo.w0)
  = verdict "/usr/share/wordlists/words/a.txt.gz"
      "50a0fcdf2890cc1b1dfcbd7866755720"
      (hashlib.hexdigest
         (hashlib.update hashlib.md5 (bytes_of_string "gzipped words"))).
Proof.
  apply (fetch_then_verify (Demo.cfg_chunk 4) Demo.out "http://h/a.txt.gz"
           "/usr/share/wordlists/words/a.txt.gz"
           "50a0fcdf2890cc1b1dfcbd7866755720"
           (Response "http://h/a.txt.gz" None (bytes_of_string "gzipped words")
                     [] false) Demo.w0).
  - reflexivity.
  - refine (bool_decide_eq_false_1 _ _). reflexivity.
  - refine (bool_decide_eq_true_1 _ _). reflexivity.
  - reflexivity.
  - discriminate.
  - reflexivity.
  - reflexivity.
  - reflexivity.
Defined.

(** X7.  [integrity_check] only reads: whatever the checksum, the flag and
    the outcome, the directories, the files, the entries and the clock of
    requests are as before and the log is only added to.  It never exits,
    and without a file at [path] it raises the error of [open], also for the
    checksum ["SKIP"]. *)
Theorem integrity_check_only_reads (cfg : config) (checksum path : string)
    (w : world) :
  let r := fst (integrity_check cfg checksum path w) in
  let w' := snd (integrity_check cfg checksum path w) in
  same_store w w' /\ w_clock w' = w_clock w /\ log_extended w w'
  /\ (forall c, r <> Exit c)
  /\ (w_files w !! path = None ->
      r = Raise (OSError ("[Errno 2] No such file or directory: '" +:+ path +:+ "'"))).
Proof.
  destruct (integrity_check_frame cfg checksum path w) as (H1 & H2 & H3 & H4).
  split; [exact H1|]. split; [exact H2|]. split; [exact H3|].
  split; [|exact H4]. intros c. apply never_exits_integrity_check.
Qed.


(* ===================================================================== *)
(** ** What is never deleted                                             *)
(* ===================================================================== *)

Lemma same_store_nothing_deleted {A} (m : M A) :
  preserves same_store m -> preserves nothing_deleted m.
Proof.
  intros H w. destruct (H w) as (Hd & Hf & _). split.
  - rewrite Hd. reflexivity.
  - rewrite Hf. reflexivity.
Qed.

Lemma nothing_deleted_log ev : preserves nothing_deleted (log ev).
Proof. apply same_store_nothing_deleted, same_store_log. Qed.

Lemma nothing_deleted_tick : preserves nothing_deleted tick.
Proof. apply same_store_nothing_deleted, same_store_tick. Qed.

Lemma nothing_deleted_os_open_rb p : preserves nothing_deleted (os.open_rb p).
Proof. unfold os.open_rb. through. Qed.

Lemma nothing_deleted_os_isfile p : preserves nothing_deleted (os.isfile p).
Proof. unfold os.isfile. through. Qed.

Lemma nothing_deleted_os_chdir d : preserves nothing_deleted (os.chdir d).
Proof.
  intros w. unfold os.chdir, bind, get.
  destruct (bool_decide (d ∈ w_dirs w)); simpl; split; reflexivity.
Qed.

Lemma nothing_deleted_os_open_wb p : preserves nothing_deleted (os.open_wb p).
Proof.
  intros w. unfold os.open_wb, bind, get.
  destruct (bool_decide (p ∈ w_dirs w)); simpl; [split; reflexivity|].
  destruct (bool_decide (os_path.dirname p ∈ w_dirs w)); simpl;
    split; try reflexivity.
  cbn. apply dom_insert_subseteq.
Qed.

Lemma nothing_deleted_os_write p data : preserves nothing_deleted (os.write p data).
Proof.
  intros w. unfold os.write, bind, get. simpl. split; [reflexivity|].
  cbn. rewrite dom_alter_L. reflexivity.
Qed.

Lemma nothing_deleted_extract_members members :
  preserves nothing_deleted (extract_members members).
Proof.
  unfold extract_members. apply preserves_for_each; [apply _|].
  intros [name data] w. unfold bind, get. simpl. split; [reflexivity|].
  cbn. apply dom_insert_subseteq.
Qed.

#[local] Hint Resolve nothing_deleted_log nothing_deleted_tick
  nothing_deleted_os_open_rb nothing_deleted_os_isfile nothing_deleted_os_chdir
  nothing_deleted_os_open_wb nothing_deleted_os_write
  nothing_deleted_extract_members : through.

Lemma nothing_deleted_decompress out filepath :
  preserves nothing_deleted (decompress out filepath).
Proof. unfold decompress, info, success. through. Qed.

Lemma nothing_deleted_resolve out url : preserves nothing_deleted (resolve out url).
Proof. apply same_store_nothing_deleted, same_store_resolve. Qed.

Lemma nothing_deleted_requests_get out url :
  preserves nothing_deleted (requests_get out url).
Proof. apply same_store_nothing_deleted, same_store_requests_get. Qed.

Lemma nothing_deleted_integrity_check cfg checksum path :
  preserves nothing_deleted (integrity_check cfg checksum path).
Proof.
  apply same_store_nothing_deleted. intros w.
  apply (integrity_check_frame cfg checksum path w).
Qed.

#[local] Hint Resolve nothing_deleted_decompress nothing_deleted_resolve
  nothing_deleted_requests_get nothing_deleted_integrity_check : through.

Lemma nothing_deleted_fetch_file cfg out url path :
  preserves nothing_deleted (fetch_file cfg out url path).
Proof. unfold fetch_file, check_file, warn, info, success. through. Qed.

#[local] Hint Resolve nothing_deleted_fetch_file : through.

(** X9.  Decompression never deletes: after [decompress], whatever its
    outcome, every file and directory that was there is still there, the
    archive included; and so it is after the whole of fetch, verification
    and decompression for an HTTP URL.  Neither looks at the flag of
    option [-r]. *)
Theorem http_path_deletes_nothing (cfg : config) (out : outside)
    (url csum file_path : string) (w : world) :
  nothing_deleted w (snd (decompress out file_path w))
  /\ (Str.startswith url "http" = true ->
      nothing_deleted w (snd (transfer cfg out url csum file_path w))).
Proof.
  split; [apply nothing_deleted_decompress|].
  intros Hhttp. unfold transfer. rewrite Hhttp.
  assert (H : preserves nothing_deleted
                (fetch_file cfg out url file_path >>
                 integrity_check cfg csum file_path >>
                 decompress out file_path)) by through.
  apply H.
Qed.

Lemma http_path_deletes_nothing_witness :
  Str.startswith "http://h/a.txt.gz" "http" = true
  /\ nothing_deleted Demo.fetched
       (snd (transfer Demo.cfg Demo.out "http://h/a.txt.gz"
               "50a0fcdf2890cc1b1dfcbd7866755720"
               "/usr/share/wordlists/words/a.txt.gz" Demo.fetched)).
Proof.
  split; [reflexivity|].
  apply (http_path_deletes_nothing Demo.cfg Demo.out "http://h/a.txt.gz"
           "50a0fcdf2890cc1b1dfcbd7866755720"
           "/usr/share/wordlists/words/a.txt.gz" Demo.fetched).
  reflexivity.
Defined.

(* ===================================================================== *)
(** ** Selection, further                                                *)
(* ===================================================================== *)

Lemma repo_get_key (repo : catalog) (k : string) :
  In k (keys repo) -> is_Some (repo_get repo k).
Proof.
  induction repo as [|[k' c] repo IH]; simpl; [intros []|].
  intros [->|Hin].
  - rewrite String.eqb_refl. eauto.
  - destruct (String.eqb k' k); [eauto | apply IH, Hin].
Qed.

Lemma total_count_nonneg (cfg : config) :
  well_formed (wordlist_repo cfg) -> 0 <= total_count cfg.
Proof.
  intros [Hnd Hc]. rewrite (total_count_cumulative cfg Hnd).
  apply cumulative_nonneg, Hc.
Qed.

(** X10.  The id 0 selects everything.  In a well-formed catalog, with no
    category selected, [select] returns every category with all its files:
    the entries selected are those of the flattened catalog, as many as the
    total count.  With a category selected it returns that category alone
    with all its files, as many as its count, and raises [KeyError] if the
    catalog has no such category. *)
Theorem select_everything (cfg : config) (code : string) (w : world) :
  well_formed (wordlist_repo cfg) ->
  (selected_category cfg = "" ->
   exists lst,
     select cfg code 0 w = (Ok lst, w)
     /\ map fst lst = keys (wordlist_repo cfg)
     /\ concat (map snd lst) = flattened (wordlist_repo cfg)
     /\ Z.of_nat (length (concat (map snd lst))) = total_count cfg)
  /\ (selected_category cfg <> "" ->
      match repo_get (wordlist_repo cfg) (selected_category cfg) with
      | Some c =>
          select cfg code 0 w = (Ok [(selected_category cfg, c_files c)], w)
          /\ (In (selected_category cfg, c) (wordlist_repo cfg) ->
              Z.of_nat (length (c_files c)) = c_count c)
      | None =>
          select cfg code 0 w = (Raise (KeyError (selected_category cfg)), w)
      end).
Proof.
  intros Hwf. pose proof (total_count_nonneg cfg Hwf) as Htot.
  destruct Hwf as [Hnd Hc].
  assert (Hrange : (0 >=? total_count cfg + 1) || (0 <? 0) = false).
  { apply orb_false_intro; [rewrite Z.geb_leb; apply Z.leb_gt; lia | reflexivity]. }
  split.
  - intros Hsel. eexists. unfold select. rewrite Hrange, Hsel. simpl.
    split; [reflexivity|].
    assert (Hfst : map fst (map (fun '(k, c) => (k, c_files c)) (wordlist_repo cfg))
                   = keys (wordlist_repo cfg)).
    { unfold keys. rewrite map_map. apply map_ext. intros [k c]. reflexivity. }
    assert (Hsnd : concat (map snd (map (fun '(k, c) => (k, c_files c))
                                       (wordlist_repo cfg)))
                   = flattened (wordlist_repo cfg)).
    { unfold flattened. rewrite map_map. f_equal. apply map_ext.
      intros [k c]. reflexivity. }
    split; [exact Hfst|]. split; [exact Hsnd|].
    rewrite Hsnd, (total_count_cumulative cfg Hnd).
    symmetry. apply cumulative_length, Hc.
  - intros Hsel. apply String.eqb_neq in Hsel.
    unfold select. rewrite Hrange, Hsel. simpl.
    unfold files_of, bind.
    destruct (repo_get (wordlist_repo cfg) (selected_category cfg)) as [c|] eqn:Eget;
      simpl; [|reflexivity].
    split; [reflexivity|]. intros Hin.
    unfold counts_cached in Hc. rewrite Forall_forall in Hc.
    symmetry. apply (Hc (selected_category cfg, c)).
    apply list_elem_of_In. exact Hin.
Qed.

Lemma select_everything_witness :
  well_formed (wordlist_repo Demo.cfg)
  /\ selected_category Demo.cfg = ""
  /\ exists lst,
      select Demo.cfg "0" 0 Demo.w0 = (Ok lst, Demo.w0)
      /\ map fst lst = keys (wordlist_repo Demo.cfg)
      /\ concat (map snd lst) = flattened (wordlist_repo Demo.cfg)
      /\ Z.of_nat (length (concat (map snd lst))) = total_count Demo.cfg.
Proof.
  assert (Hwf : well_formed (wordlist_repo Demo.cfg)).
  { split.
    - apply NoDup_cons. split; [|apply NoDup_singleton].
      intros H. apply list_elem_of_In in H. destruct H as [H|[]]. discriminate H.
    - repeat constructor. }
  split; [exact Hwf|]. split; [reflexivity|].
  exact (proj1 (select_everything Demo.cfg "0" Demo.w0 Hwf) eq_refl).
Defined.

(** X11.  With a category selected, an id between 1 and the total count of
    the catalog is taken as a position in that category alone: it selects
    the entry at index [id - 1] of the category, and when the category has
    fewer entries, [select] raises [IndexError] although the id passed the
    test of validity, which is made against the total count. *)
Theorem select_in_category (cfg : config) (code : string) (id : Z)
    (c : category) (w : world) :
  selected_category cfg <> "" ->
  repo_get (wordlist_repo cfg) (selected_category cfg) = Some c ->
  1 <= id <= total_count cfg ->
  (id <= Z.of_nat (length (c_files c)) ->
   exists j, c_files c !! Z.to_nat (id - 1) = Some j
             /\ select cfg code id w = (Ok [(selected_category cfg, [j])], w))
  /\ (Z.of_nat (length (c_files c)) < id ->
      select cfg code id w = (Raise (IndexError "list index out of range"), w)).
Proof.
  intros Hsel Hget [Hlo Hhi]. apply String.eqb_neq in Hsel.
  assert (Hrun : select cfg code id w
                 = (let* j := file_at cfg (selected_category cfg) (id - 1) in
                    ret [(selected_category cfg, [j])]) w).
  { unfold select.
    replace ((id >=? total_count cfg + 1) || (id <? 0)) with false
      by (symmetry; apply orb_false_intro;
          [rewrite Z.geb_leb; apply Z.leb_gt | apply Z.ltb_ge]; lia).
    replace (id =? 0) with false by (symmetry; apply Z.eqb_neq; lia).
    rewrite Hsel. reflexivity. }
  rewrite Hrun. unfold file_at, files_of, bind. rewrite Hget. simpl.
  unfold py_index. replace (0 <=? id - 1) with true by (symmetry; apply Z.leb_le; lia).
  split.
  - intros Hin.
    destruct (lookup_lt_is_Some_2 (c_files c) (Z.to_nat (id - 1))) as [j Hj]; [lia|].
    exists j. rewrite Hj. split; reflexivity.
  - intros Hout. rewrite lookup_ge_None_2 by lia. reflexivity.
Qed.

Lemma select_in_category_witness :
  selected_category (set_selected_category "misc" Demo.cfg) <> ""
  /\ repo_get (wordlist_repo (set_selected_category "misc" Demo.cfg))
       (selected_category (set_selected_category "misc" Demo.cfg))
     = Some (Category [0%nat] 1 [12; 12])
  /\ 1 <= 2 <= total_count (set_selected_category "misc" Demo.cfg)
  /\ Z.of_nat (length (c_files (Category [0%nat] 1 [12; 12]))) < 2
  /\ select (set_selected_category "misc" Demo.cfg) "2" 2 Demo.w0
     = (Raise (IndexError "list index out of range"), Demo.w0).
Proof.
  assert (H1 : selected_category (set_selected_category "misc" Demo.cfg) <> "")
    by discriminate.
  assert (H2 : repo_get (wordlist_repo (set_selected_category "misc" Demo.cfg))
                 (selected_category (set_selected_category "misc" Demo.cfg))
               = Some (Category [0%nat] 1 [12; 12])) by reflexivity.
  assert (H3 : 1 <= 2 <= total_count (set_selected_category "misc" Demo.cfg))
    by (vm_compute; split; discriminate).
  assert (H4 : Z.of_nat (length (c_files (Category [0%nat] 1 [12; 12]))) < 2)
    by reflexivity.
  split; [exact H1|]. split; [exact H2|]. split; [exact H3|]. split; [exact H4|].
  exact (proj2 (select_in_category (set_selected_category "misc" Demo.cfg) "2" 2
                  (Category [0%nat] 1 [12; 12]) Demo.w0 H1 H2 H3) H4).
Defined.

(** X12.  [change_category] takes the position of a category among the
    keys of the catalog.  For a position in range it returns and the
    category it assigns is the key at that position, so that looking it up
    in the catalog cannot fail later; for any other number, and for a code
    that is no number, it reports the error and exits with status -1. *)
Theorem change_category_picks_a_key (cfg : config) (out : outside)
    (code : string) (w : world) :
  match py_int out code with
  | None =>
      change_category cfg out code w
      = (Exit (-1), with_log w (w_log w ++ [Err (code +:+ " is not a valid number")]))
  | Some id =>
      if (0 <=? id) && (id <? Z.of_nat (length (keys (wordlist_repo cfg)))) then
        exists k,
          change_category cfg out code w = (Ok k, w)
          /\ keys (wordlist_repo cfg) !! Z.to_nat id = Some k
          /\ is_Some (repo_get (wordlist_repo cfg) k)
      else
        change_category cfg out code w
        = (Exit (-1),
           with_log w (w_log w ++ [Err ("Error while changing category: "
                                        +:+ code +:+ " is not a valid category id")]))
  end.
Proof.
  unfold change_category, to_int.
  destruct (py_int out code) as [id|]; [|reflexivity].
  destruct ((0 <=? id) && (id <? Z.of_nat (length (keys (wordlist_repo cfg)))))
    eqn:Ein; unfold bind at 1, ret at 1; cbv beta iota; unfold try_except.
  - apply andb_true_iff in Ein. destruct Ein as [Hlo Hhi].
    apply Z.leb_le in Hlo. apply Z.ltb_lt in Hhi.
    replace ((id >=? Z.of_nat (length (keys (wordlist_repo cfg)))) || (id <? 0))
      with false
      by (symmetry; apply orb_false_intro;
          [rewrite Z.geb_leb; apply Z.leb_gt | apply Z.ltb_ge]; lia).
    unfold py_index. replace (0 <=? id) with true by (symmetry; apply Z.leb_le; lia).
    destruct (lookup_lt_is_Some_2 (keys (wordlist_repo cfg)) (Z.to_nat id))
      as [k Hk]; [lia|].
    exists k. rewrite Hk. split; [reflexivity|]. split; [reflexivity|].
    apply repo_get_key, list_elem_of_In, list_elem_of_lookup. eauto.
  - replace ((id >=? Z.of_nat (length (keys (wordlist_repo cfg)))) || (id <? 0))
      with true; [reflexivity|].
    symmetry. apply orb_true_iff. rewrite Z.geb_leb.
    apply andb_false_iff in Ein. destruct Ein as [E|E].
    + right. apply Z.ltb_lt. apply Z.leb_gt in E. exact E.
    + left. apply Z.leb_le. apply Z.ltb_ge in E. exact E.
Qed.


Lemma resolve_first_answer_witness :
  resolver_for Cases.flaky "http://downloads.sourceforge.net/p/list.txt"
  = Some (resolve_sourceforge Cases.flaky)
  /\ exists (k : nat) (s : string) (wk w' : world),
      resolve Cases.flaky "http://downloads.sourceforge.net/p/list.txt" Demo.w0
      = (Ok s, w')
      /\ nsteps (empty_turn (resolve_sourceforge Cases.flaky)
                   "http://downloads.sourceforge.net/p/list.txt") k Demo.w0 wk
      /\ ((s = "" /\ k = 10%nat /\ w' = wk)
          \/ (s <> "" /\ (k < 10)%nat
              /\ exists w1,
                  resolve_sourceforge Cases.flaky
                    "http://downloads.sourceforge.net/p/list.txt" wk = (Ok s, w1)
                  /\ w' = snd (log (Sleep 10) w1))).
Proof.
  split; [reflexivity|].
  apply (resolve_first_answer Cases.flaky
           "http://downloads.sourceforge.net/p/list.txt"
           (resolve_sourceforge Cases.flaky) Demo.w0).
  reflexivity.
Defined.

(** On the network whose first answer is lost, the second call gives the
    mirror, after two pauses in all. *)
Example resolve_on_a_flaky_network :
  let url := "http://downloads.sourceforge.net/p/list.txt" in
  resolve Cases.flaky url Demo.w0
  = (Ok "http://mirror/list.txt",
     World (w_dirs Demo.w0) (w_files Demo.w0) "/" (w_heap Demo.w0) false 2
           [HttpGet url; Sleep 10; HttpGet url; Sleep 10]).
Proof. reflexivity. Qed.

(* ===================================================================== *)
(** ** The torrent flag                                                  *)
(* ===================================================================== *)

(** X14.  The flag of option [-T] stops the downloads from [.torrent] files
    only.  For a magnet link [fetch_torrent] does the same whatever the
    flag; for any other URL, with the flag off, it returns at once: the
    session is opened if it was not, the swarm is not asked and the
    [.torrent] file stays where it is. *)
Theorem torrent_flag_spares_magnet_links (cfg : config) (out : outside)
    (url path : string) (w : world) :
  (Str.startswith url "magnet:?" = true ->
   forall b, fetch_torrent (set_torrent_dl b cfg) out url path w
             = fetch_torrent cfg out url path w)
  /\ (Str.startswith url "magnet:?" = false ->
      torrent_dl cfg = false ->
      fetch_torrent cfg out url path w
      = (Ok tt, World (w_dirs w) (w_files w) (w_cwd w) (w_heap w) true
                      (w_clock w) (w_log w))).
Proof.
  split.
  - intros Hmagnet b. unfold fetch_torrent. rewrite Hmagnet. reflexivity.
  - intros Hmagnet Hoff. unfold fetch_torrent. rewrite Hmagnet, Hoff.
    unfold bind, get. destruct w as [? ? ? ? [] ? ?]; reflexivity.
Qed.

Lemma torrent_flag_spares_magnet_links_witness :
  Str.startswith "magnet:?xt=urn:btih:0" "magnet:?" = true
  /\ fetch_torrent (set_torrent_dl false Demo.cfg) Demo.out
       "magnet:?xt=urn:btih:0" "/usr/share/wordlists/misc/x" Demo.w0
     = fetch_torrent Demo.cfg Demo.out
         "magnet:?xt=urn:btih:0" "/usr/share/wordlists/misc/x" Demo.w0.
Proof.
  split; [reflexivity|].
  apply (torrent_flag_spares_magnet_links Demo.cfg Demo.out
           "magnet:?xt=urn:btih:0" "/usr/share/wordlists/misc/x" Demo.w0).
  reflexivity.
Defined.

(* ===================================================================== *)
(** ** The choice of a URL                                               *)
(* ===================================================================== *)

Lemma py_sort_sorted (l : list string) : StronglySorted String.le (py_sort l).
Proof. unfold py_sort. apply StronglySorted_merge_sort; apply _. Qed.

Lemma py_sort_permutation (l : list string) : py_sort l ≡ₚ l.
Proof. unfold py_sort. apply merge_sort_Permutation. Qed.

Lemma py_sort_twice (l : list string) : py_sort (py_sort l) = py_sort l.
Proof.
  apply (Sorted_unique String.le).
  - apply StronglySorted_Sorted, py_sort_sorted.
  - apply StronglySorted_Sorted, py_sort_sorted.
  - apply py_sort_permutation.
Qed.

Lemma sorted_first (l : list string) (u v : string) :
  StronglySorted String.le l -> l !! O = Some u -> In v l -> String.le u v.
Proof.
  intros Hs Hu Hv. destruct l as [|x l]; [discriminate|].
  inversion Hu; subst. inversion Hs as [|? ? _ Hall]; subst.
  destruct Hv as [->|Hv]; [reflexivity|].
  rewrite Forall_forall in Hall. apply Hall, list_elem_of_In, Hv.
Qed.

Lemma sorted_last (l : list string) (u v : string) :
  StronglySorted String.le l -> l !! (length l - 1)%nat = Some u ->
  In v l -> String.le v u.
Proof.
  induction 1 as [|x l Hs IH Hall]; intros Hu Hv; [destruct Hv|].
  destruct l as [|y l].
  - inversion Hu; subst. destruct Hv as [->|[]]. reflexivity.
  - replace (length (x :: y :: l) - 1)%nat with (S (length l)) in Hu
      by (simpl; lia).
    assert (Hu' : (y :: l) !! (length (y :: l) - 1)%nat = Some u).
    { replace (length (y :: l) - 1)%nat with (length l) by (simpl; lia).
      exact Hu. }
    destruct Hv as [->|Hv]; [|apply IH; assumption].
    rewrite Forall_forall in Hall. apply Hall.
    apply list_elem_of_lookup. eauto.
Qed.

Lemma py_index_first {A} (l : list A) : py_index l 0 = l !! O.
Proof. reflexivity. Qed.

Lemma py_index_last {A} (l : list A) : py_index l (-1) = l !! (length l - 1)%nat.
Proof.
  unfold py_index. simpl (0 <=? -1).
  destruct l as [|x l]; [reflexivity|].
  replace (0 <=? Z.of_nat (length (x :: l)) + -1) with true
    by (symmetry; apply Z.leb_le; simpl; lia).
  f_equal. simpl. lia.
Qed.

(** What [choose_url] does on an entry of the store. *)
Lemma choose_url_run (cfg : config) (config : loc) (e : entry) (w : world) :
  w_heap w !! config = Some e ->
  choose_url cfg config w
  = (match py_index (py_sort (e_url e)) (if prefer_http cfg then 0 else -1) with
     | Some u => Ok u
     | None => Raise (IndexError "list index out of range")
     end,
     World (w_dirs w) (w_files w) (w_cwd w)
           (<[ config := Entry (e_name e) (py_sort (e_url e)) (e_sum e) (e_size e) ]>
              (w_heap w))
           (w_session w) (w_clock w) (w_log w)).
Proof.
  intros He. unfold choose_url, deref, bind, get, from_some, set_heap.
  rewrite He. simpl.
  destruct (py_index (py_sort (e_url e)) (if prefer_http cfg then 0 else -1));
    reflexivity.
Qed.

(** X15.  [choose_url] on an entry with at least one URL returns one of
    the entry's URLs: the smallest in lexicographic order when HTTP is
    preferred, the largest otherwise.  On an entry without URL it raises
    [IndexError].  In both cases it leaves the entry with its URLs sorted,
    the same URLs as before. *)
Theorem choose_url_extreme (cfg : config) (config : loc) (e : entry) (w : world) :
  w_heap w !! config = Some e ->
  let r := fst (choose_url cfg config w) in
  let w' := snd (choose_url cfg config w) in
  (e_url <$> w_heap w' !! config) = Some (py_sort (e_url e))
  /\ Sorted String.le (py_sort (e_url e))
  /\ py_sort (e_url e) ≡ₚ e_url e
  /\ (e_url e = [] -> r = Raise (IndexError "list index out of range"))
  /\ (e_url e <> [] ->
      exists u, r = Ok u /\ In u (e_url e)
                /\ forall v, In v (e_url e) ->
                     if prefer_http cfg then String.le u v else String.le v u).
Proof.
  intros He r w'. subst r w'. rewrite (choose_url_run cfg config e w He). simpl.
  pose proof (py_sort_sorted (e_url e)) as Hs.
  pose proof (py_sort_permutation (e_url e)) as Hp.
  split.
  { rewrite list_lookup_insert_eq by (apply lookup_lt_is_Some; eauto). reflexivity. }
  split; [apply StronglySorted_Sorted, Hs|]. split; [exact Hp|].
  split.
  - intros Hnil. rewrite Hnil. destruct (prefer_http cfg); reflexivity.
  - intros Hne.
    assert (Hlen : (0 < length (py_sort (e_url e)))%nat).
    { rewrite Hp. destruct (e_url e); [congruence | simpl; lia]. }
    assert (Hin : forall v, In v (e_url e) <-> In v (py_sort (e_url e))).
    { intros v. rewrite <- !list_elem_of_In. rewrite Hp. reflexivity. }
    destruct (prefer_http cfg).
    + rewrite py_index_first.
      destruct (lookup_lt_is_Some_2 (py_sort (e_url e)) O Hlen) as [u Hu].
      rewrite Hu. exists u. split; [reflexivity|]. split.
      * apply Hin, list_elem_of_In, list_elem_of_lookup. eauto.
      * intros v Hv. apply (sorted_first _ _ _ Hs Hu), Hin, Hv.
    + rewrite py_index_last.
      destruct (lookup_lt_is_Some_2 (py_sort (e_url e))
                  (length (py_sort (e_url e)) - 1)) as [u Hu]; [lia|].
      rewrite Hu. exists u. split; [reflexivity|]. split.
      * apply Hin, list_elem_of_In, list_elem_of_lookup. eauto.
      * intros v Hv. apply (sorted_last _ _ _ Hs Hu), Hin, Hv.
Qed.

Lemma choose_url_extreme_witness :
  w_heap Demo.w0 !! 0%nat = Some Demo.mirrors
  /\ e_url Demo.mirrors <> []
  /\ exists u,
      fst (choose_url Demo.cfg 0%nat Demo.w0) = Ok u /\ In u (e_url Demo.mirrors)
      /\ forall v, In v (e_url Demo.mirrors) ->
           if prefer_http Demo.cfg then String.le u v else String.le v u.
Proof.
  assert (H1 : w_heap Demo.w0 !! 0%nat = Some Demo.mirrors) by reflexivity.
  assert (H2 : e_url Demo.mirrors <> []) by discriminate.
  split; [exact H1|]. split; [exact H2|].
  exact (proj2 (proj2 (proj2 (proj2
           (choose_url_extreme Demo.cfg 0%nat Demo.mirrors Demo.w0 H1)))) H2).
Defined.

(** X16.  The sort of [choose_url] changes an entry once: a second call
    returns what the first one returned and leaves the world as the first
    one left it. *)
Theorem choose_url_settles (cfg : config) (config : loc) (w : world) :
  let w1 := snd (choose_url cfg config w) in
  choose_url cfg config w1 = (fst (choose_url cfg config w), w1).
Proof.
  destruct (w_heap w !! config) as [e|] eqn:He.
  - rewrite (choose_url_run cfg config e w He). simpl.
    set (e' := Entry (e_name e) (py_sort (e_url e)) (e_sum e) (e_size e)).
    assert (He' : <[ config := e' ]> (w_heap w) !! config = Some e')
      by (apply list_lookup_insert_eq, lookup_lt_is_Some; eauto).
    match goal with |- choose_url _ _ ?w1 = _ =>
      rewrite (choose_url_run cfg config e' w1 He') end. simpl.
    rewrite py_sort_twice. fold e'. rewrite list_insert_insert_eq. reflexivity.
  - assert (Hrun : choose_url cfg config w = (Raise (KeyError "config"), w)).
    { unfold choose_url, deref, bind, get, from_some. rewrite He. reflexivity. }
    rewrite Hrun. simpl. exact Hrun.
Qed.

Lemma py_list_index_first (u : string) (l : list string) :
  l !! O = Some u -> py_list_index u l = Some O.
Proof.
  destruct l as [|x l]; [discriminate|]. intros E. inversion E; subst.
  simpl. rewrite String.eqb_refl. reflexivity.
Qed.

Lemma py_list_index_NoDup (l : list string) :
  NoDup l -> forall (i : nat) (u : string),
    l !! i = Some u -> py_list_index u l = Some i.
Proof.
  induction 1 as [|x l Hx Hnd IH]; intros i u Hu; [discriminate|].
  destruct i as [|i]; simpl in Hu.
  - apply py_list_index_first. exact Hu.
  - simpl. destruct (String.eqb_spec x u) as [->|Hne].
    + exfalso. apply Hx. apply list_elem_of_lookup. eauto.
    + rewrite (IH i u Hu). reflexivity.
Qed.

(** X17.  The checksum that [download_wordlist] hands to the verification
    is taken by position in the sorted list of URLs, not by URL.  When HTTP
    is preferred it is the first checksum of the entry, whichever URL is
    chosen; otherwise, for an entry whose URLs are distinct, it is the
    checksum at the last position of the URLs.  [IndexError] is raised when
    the entry has no checksum at that position. *)
Theorem checksum_is_positional (cfg : config) (config : loc) (e : entry)
    (w : world) :
  w_heap w !! config = Some e ->
  e_url e <> [] ->
  let r := fst ((let* url := choose_url cfg config in
                 checksum_of config url) w) in
  (prefer_http cfg = true ->
   r = match e_sum e !! O with
       | Some s => Ok s
       | None => Raise (IndexError "list index out of range")
       end)
  /\ (prefer_http cfg = false -> NoDup (e_url e) ->
      r = match e_sum e !! (length (e_url e) - 1)%nat with
          | Some s => Ok s
          | None => Raise (IndexError "list index out of range")
          end).
Proof.
  intros He Hne r.
  set (w1 := World (w_dirs w) (w_files w) (w_cwd w)
               (<[ config := Entry (e_name e) (py_sort (e_url e)) (e_sum e)
                                   (e_size e) ]> (w_heap w))
               (w_session w) (w_clock w) (w_log w)).
  assert (Hr : r = match py_index (py_sort (e_url e))
                           (if prefer_http cfg then 0 else -1) with
                   | Some u => fst (checksum_of config u w1)
                   | None => Raise (IndexError "list index out of range")
                   end).
  { subst r. unfold bind. rewrite (choose_url_run cfg config e w He).
    fold w1. destruct (py_index _ _); [|reflexivity].
    destruct (checksum_of config s w1) as [[]]; reflexivity. }
  rewrite Hr. clear Hr r.
  pose proof (py_sort_permutation (e_url e)) as Hp.
  assert (Hlen : length (py_sort (e_url e)) = length (e_url e))
    by (rewrite Hp; reflexivity).
  assert (Hpos : (0 < length (py_sort (e_url e)))%nat).
  { rewrite Hlen. destruct (e_url e); [congruence | simpl; lia]. }
  set (e' := Entry (e_name e) (py_sort (e_url e)) (e_sum e) (e_size e)).
  assert (He' : <[ config := e' ]> (w_heap w) !! config = Some e')
    by (apply list_lookup_insert_eq, lookup_lt_is_Some; eauto).
  assert (Hsum : forall u i w2,
            w_heap w2 !! config = Some e' ->
            py_list_index u (py_sort (e_url e)) = Some i ->
            fst (checksum_of config u w2)
            = match e_sum e !! i with
              | Some s => Ok s
              | None => Raise (IndexError "list index out of range")
              end).
  { intros u i w2 H1 Hi. unfold checksum_of, deref, bind, get, from_some.
    rewrite H1. simpl. rewrite Hi. simpl.
    destruct (e_sum e !! i); reflexivity. }
  split.
  - intros Hpref. rewrite Hpref, py_index_first.
    destruct (lookup_lt_is_Some_2 (py_sort (e_url e)) O Hpos) as [u Hu].
    rewrite Hu.
    apply (Hsum u O w1); [exact He'|]. apply py_list_index_first, Hu.
  - intros Hpref Hnd. rewrite Hpref, py_index_last.
    destruct (lookup_lt_is_Some_2 (py_sort (e_url e))
                (length (py_sort (e_url e)) - 1)) as [u Hu]; [lia|].
    rewrite Hu. rewrite <- Hlen.
    apply (Hsum u _ w1); [exact He'|].
    apply py_list_index_NoDup; [|exact Hu]. rewrite Hp. exact Hnd.
Qed.

Lemma checksum_is_positional_witness :
  w_heap Demo.w0 !! 0%nat = Some Demo.mirrors
  /\ e_url Demo.mirrors <> []
  /\ prefer_http Cases.prefer_http_cfg = true
  /\ fst ((let* url := choose_url Cases.prefer_http_cfg 0%nat in
           checksum_of 0%nat url) Demo.w0)
     = match e_sum Demo.mirrors !! O with
       | Some s => Ok s
       | None => Raise (IndexError "list index out of range")
       end.
Proof.
  assert (H1 : w_heap Demo.w0 !! 0%nat = Some Demo.mirrors) by reflexivity.
  assert (H2 : e_url Demo.mirrors <> []) by discriminate.
  split; [exact H1|]. split; [exact H2|]. split; [reflexivity|].
  exact (proj1 (checksum_is_positional Cases.prefer_http_cfg 0%nat Demo.mirrors
                  Demo.w0 H1 H2) eq_refl).
Defined.

(* ===================================================================== *)
(** ** Searching the catalog                                             *)
(* ===================================================================== *)

Lemma files_at_flattened (cfg : config) :
  NoDup (keys (wordlist_repo cfg)) ->
  concat (map (files_at cfg) (keys (wordlist_repo cfg)))
  = flattened (wordlist_repo cfg).
Proof.
  intros Hnd.
  assert (H : forall l, incl l (wordlist_repo cfg) ->
            concat (map (files_at cfg) (keys l)) = flattened l).
  { induction l as [|[k c] l IH]; intros Hincl; [reflexivity|].
    unfold flattened. simpl. fold (flattened l).
    rewrite IH by (intros x Hx; apply Hincl; right; exact Hx).
    unfold files_at at 1.
    rewrite (repo_get_In _ k c Hnd) by (apply Hincl; left; reflexivity).
    reflexivity. }
  apply H, incl_refl.
Qed.

Lemma index_of_finds (heap : list entry) (lst : list loc) (i : loc) :
  In i lst ->
  exists p j, index_of heap lst i = Some p /\ lst !! p = Some j
              /\ heap !! j = heap !! i.
Proof.
  induction lst as [|x lst IH]; intros Hin; [destruct Hin|].
  simpl. destruct (decide (heap !! x = heap !! i)) as [E|E].
  - rewrite bool_decide_eq_true_2 by exact E. exists O, x. repeat split. exact E.
  - rewrite bool_decide_eq_false_2 by exact E.
    destruct Hin as [->|Hin]; [congruence|].
    destruct (IH Hin) as (p & j & Hp & Hj & Hv).
    exists (S p), j. rewrite Hp. repeat split; assumption.
Qed.

(** With no category selected, the id [p + 1] selects the entry at
    position [p] of the flattened catalog. *)
Lemma select_at_position (cfg : config) (code : string) (p : nat) (j : loc)
    (w : world) :
  well_formed (wordlist_repo cfg) ->
  selected_category cfg = "" ->
  flattened (wordlist_repo cfg) !! p = Some j ->
  exists k, select cfg code (Z.of_nat p + 1) w = (Ok [(k, [j])], w).
Proof.
  intros [Hnd Hc] Hsel Hp.
  pose proof (total_count_cumulative cfg Hnd) as Htot.
  pose proof (cumulative_length _ Hc) as Hlen.
  pose proof (lookup_lt_Some _ _ _ Hp) as Hlt.
  set (id := Z.of_nat p + 1).
  destruct (find_category_stops cfg id Hnd (wordlist_repo cfg) "" 0
              (incl_refl _) Hc ltac:(subst id; lia))
    as (pre & k & c & post & Erepo & Hb & Hrun).
  assert (Hcpre : counts_cached pre).
  { rewrite Erepo in Hc. apply Forall_app in Hc. apply Hc. }
  assert (Hck : c_count c = Z.of_nat (length (c_files c))).
  { rewrite Erepo in Hc. apply Forall_app in Hc. destruct Hc as [_ Hc].
    inversion Hc; subst. assumption. }
  assert (Hlpre : cumulative pre = Z.of_nat (length (flattened pre)))
    by (apply cumulative_length, Hcpre).
  assert (Hj : c_files c !! Z.to_nat (id - 1 - cumulative pre) = Some j).
  { rewrite Erepo, flattened_app in Hp.
    change ((k, c) :: post) with ([(k, c)] ++ post) in Hp.
    rewrite flattened_app in Hp. unfold flattened at 2 in Hp. simpl in Hp.
    rewrite app_nil_r in Hp.
    rewrite lookup_app_r in Hp by (subst id; lia).
    rewrite lookup_app_l in Hp by (subst id; lia).
    rewrite <- Hp. f_equal. subst id. lia. }
  exists k. unfold select.
  replace ((id >=? total_count cfg + 1) || (id <? 0)) with false
    by (symmetry; apply orb_false_intro;
        [rewrite Z.geb_leb; apply Z.leb_gt | apply Z.ltb_ge]; subst id; lia).
  replace (id =? 0) with false by (symmetry; apply Z.eqb_neq; subst id; lia).
  rewrite Hsel. simpl. rewrite Hrun.
  unfold file_at, files_of, bind.
  rewrite (repo_get_In (wordlist_repo cfg) k c Hnd)
    by (rewrite Erepo; apply in_or_app; right; left; reflexivity).
  simpl. unfold py_index.
  replace (0 <=? id - 1 - (0 + cumulative pre + c_count c)) with false
    by (symmetry; apply Z.leb_gt; lia).
  replace (0 <=? Z.of_nat (length (c_files c))
                 + (id - 1 - (0 + cumulative pre + c_count c))) with true
    by (symmetry; apply Z.leb_le; lia).
  replace (Z.to_nat (Z.of_nat (length (c_files c))
                     + (id - 1 - (0 + cumulative pre + c_count c))))
    with (Z.to_nat (id - 1 - cumulative pre)) by lia.
  rewrite Hj. reflexivity.
Qed.

Section search_loop_facts.

Context (cfg : config) (re_match : string -> string -> re_answer).
Context (regex : string) (lst : list loc).
Hypothesis compiles : forall name, exists b, re_match regex name = Matches b.

(** The loop prints one line for each entry whose name matches, in the
    order of the list, with an id that is the position, counted from 1, of
    an equal entry of the list. *)
Lemma search_loop_run :
  forall (rest : list loc) (count : Z) (w : world),
    incl rest lst ->
    Forall (fun j => is_Some (w_heap w !! j)) rest ->
    exists (es : list entry) (hits : list (entry * Z)),
      search_loop re_match regex lst rest count w
      = (Ok (count + Z.of_nat (length hits)),
         with_log w (w_log w ++ map (fun h => found_line (fst h) (snd h)) hits))
      /\ Forall2 (fun j e => w_heap w !! j = Some e) rest es
      /\ map fst hits
         = List.filter
             (fun e => bool_decide (re_match regex (e_name e) = Matches true)) es
      /\ forall e id, In (e, id) hits ->
           exists (p : nat) (j : loc),
             id = Z.of_nat p + 1 /\ lst !! p = Some j
             /\ w_heap w !! j = Some e.
Proof.
  induction rest as [|i rest IH]; intros count w Hincl Hstored.
  - exists [], []. simpl. unfold ret, with_log. rewrite app_nil_r, Z.add_0_r.
    destruct w; repeat split; [constructor | intros e id []].
  - inversion Hstored as [|? ? [e He] Hstored']; subst.
    destruct (index_of_finds (w_heap w) lst i) as (p & j & Hp & Hj & Hv);
      [apply Hincl; left; reflexivity|].
    assert (Hrest : incl rest lst) by (intros x Hx; apply Hincl; right; exact Hx).
    simpl. unfold bind at 1, deref, bind at 1, get at 1, from_some.
    cbv beta iota. rewrite He. unfold ret at 1. cbv beta iota.
    unfold bind at 1, get at 1. cbv beta iota.
    unfold bind at 1. rewrite Hp. unfold ret at 1. cbv beta iota.
    destruct (compiles (e_name e)) as [[] Hm]; rewrite Hm.
    + unfold bind at 1, success, log. cbv beta iota.
      match goal with |- context [search_loop _ _ _ _ _ ?w1] =>
        destruct (IH (count + 1) w1 Hrest Hstored')
          as (es & hits & Hrun & Hes & Hnames & Hhits)
      end.
      exists (e :: es), ((e, Z.of_nat p + 1) :: hits). rewrite Hrun.
      split; [|split; [|split]].
      * unfold with_log. simpl. rewrite <- app_assoc. simpl.
        do 2 f_equal. lia.
      * constructor; [exact He | exact Hes].
      * simpl. rewrite Hm, bool_decide_eq_true_2 by reflexivity.
        rewrite Hnames. reflexivity.
      * intros e' id' [E|Hin].
        -- inversion E; subst. exists p, j. rewrite Hv. repeat split; assumption.
        -- apply (Hhits e' id' Hin).
    + destruct (IH count w Hrest Hstored')
        as (es & hits & Hrun & Hes & Hnames & Hhits).
      exists (e :: es), hits. rewrite Hrun.
      split; [reflexivity|]. split; [constructor; [exact He | exact Hes]|].
      split; [|exact Hhits].
      simpl. rewrite Hm, bool_decide_eq_false_2 by discriminate. exact Hnames.
Qed.

End search_loop_facts.

(** X18.  The ids that [search_sites] prints can be passed to
    [download_wordlists].  In a well-formed catalog whose entries are all in
    the store, with no category selected and an expression that [re]
    accepts, [search_sites] returns after one line for each entry of the
    catalog whose name matches, in the order of the catalog, or the message
    that nothing was found when there is none; and the id of each line
    selects one entry, equal to the entry the line was printed for. *)
Theorem search_ids_select (cfg : config)
    (re_match : string -> string -> re_answer) (regex code : string) (w : world) :
  well_formed (wordlist_repo cfg) ->
  all_stored (wordlist_repo cfg) (w_heap w) ->
  selected_category cfg = "" ->
  (forall name, exists b, re_match regex name = Matches b) ->
  exists (es : list entry) (hits : list (entry * Z)),
    search_sites cfg re_match regex w
    = (Ok tt,
       with_log w
         (w_log w
          ++ Info ("searching for " +:+ regex +:+ " in repo.json"
                   +:+ String re.newline "")
          :: map (fun h => found_line (fst h) (snd h)) hits
          ++ (if hits is [] then [Err "no wordlist found"] else [])))
    /\ Forall2 (fun j e => w_heap w !! j = Some e)
               (flattened (wordlist_repo cfg)) es
    /\ map fst hits
       = List.filter
           (fun e => bool_decide (re_match regex (e_name e) = Matches true)) es
    /\ forall e id, In (e, id) hits ->
         exists k j, select cfg code id w = (Ok [(k, [j])], w)
                     /\ w_heap w !! j = Some e.
Proof.
  intros Hwf Hstored Hsel Hcompiles.
  pose proof Hwf as [Hnd Hc].
  set (lst := flattened (wordlist_repo cfg)).
  set (w1 := with_log w
                (w_log w ++ [Info ("searching for " +:+ regex +:+ " in repo.json"
                                   +:+ String re.newline "")])).
  destruct (search_loop_run re_match regex lst Hcompiles lst 0 w1
              (incl_refl _) Hstored) as (es & hits & Hrun & Hes & Hnames & Hhits).
  exists es, hits. split; [|split; [exact Hes|split; [exact Hnames|]]].
  - unfold search_sites, bind at 1, info at 1, log at 1. cbv beta iota.
    unfold try_except, bind at 1, listing.
    rewrite Hsel. change (negb ("" =? "")%string) with false. cbv iota.
    unfold ret at 1. cbv beta iota.
    rewrite (files_at_flattened cfg Hnd). fold lst.
    unfold bind at 1.
    match goal with |- context [search_loop _ _ _ _ _ ?w'] =>
      change w' with w1 end.
    rewrite Hrun.
    destruct hits as [|h hits]; simpl.
    + unfold err, log, with_log. simpl. rewrite app_nil_r, <- app_assoc.
      reflexivity.
    + replace (0 + Z.pos (Pos.of_succ_nat (length hits)) =? 0) with false
        by (symmetry; apply Z.eqb_neq; lia).
      unfold ret, with_log. simpl. rewrite <- app_assoc, app_nil_r.
      reflexivity.
  - intros e id Hin. destruct (Hhits e id Hin) as (p & j & -> & Hp & Hj).
    destruct (select_at_position cfg code p j w Hwf Hsel Hp) as [k Hk].
    exists k, j. split; [exact Hk | exact Hj].
Qed.

Lemma search_ids_select_witness :
  exists (es : list entry) (hits : list (entry * Z)),
    search_sites Demo.cfg Cases.literal "fi" Demo.w0
    = (Ok tt,
       with_log Demo.w0
         (w_log Demo.w0
          ++ Info ("searching for " +:+ "fi" +:+ " in repo.json"
                   +:+ String re.newline "")
          :: map (fun h => found_line (fst h) (snd h)) hits
          ++ (if hits is [] then [Err "no wordlist found"] else [])))
    /\ Forall2 (fun j e => w_heap Demo.w0 !! j = Some e)
               (flattened (wordlist_repo Demo.cfg)) es
    /\ map fst hits
       = List.filter
           (fun e => bool_decide (Cases.literal "fi" (e_name e) = Matches true))
           es
    /\ forall e id, In (e, id) hits ->
         exists k j, select Demo.cfg "1" id Demo.w0 = (Ok [(k, [j])], Demo.w0)
                     /\ w_heap Demo.w0 !! j = Some e.
Proof.
  apply (search_ids_select Demo.cfg Cases.literal "fi" "1" Demo.w0).
  - split.
    + apply NoDup_cons. split; [|apply NoDup_singleton].
      intros H. apply list_elem_of_In in H. destruct H as [H|[]]. discriminate H.
    + repeat constructor.
  - repeat constructor; eexists; reflexivity.
  - reflexivity.
  - intros name. eexists. reflexivity.
Defined.

(* ===================================================================== *)
(** ** Removing and decompressing                                        *)
(* ===================================================================== *)




Example found_line_of_the_demo :
  found_line Demo.mirrors 1 = Success "wordlist file found: id=1".
Proof. vm_compute. reflexivity. Qed.
